(** * Rutherford scattering simulation: a shallow embedding

    The development follows [src/rutherford_simulation.tsx], the single
    React component [RutherfordSimulation].

    Modelling conventions.
    - JavaScript numbers are modelled as real numbers with exact
      arithmetic: [Math.atan], [Math.cos], [Math.sin], [Math.sqrt] and
      [Math.PI] are the functions and the constant of the real-number
      library, [Math.floor] is [Zfloor].  The two kinds of division differ
      at a zero denominator only; the statements below keep denominators
      away from zero or do not use the quotient (C4).
    - [Math.random()] is an explicit source: the n-th call of a run returns
      [Math_random n], and the store counts the calls made so far.
    - The values a function reads from the component scope ([running],
      [counter], [nuclearCharge], ...) are the fields of the render it was
      created in, a record [Render]; objects held by [useRef] live in a
      record [Refs] that is threaded through the calls.
    - The histogram object is a finite map from bin keys to counts. *)

From Stdlib Require Import Reals Lra Lia ZArith.
From stdpp Require Import base option list gmap sorting.

Open Scope R_scope.

(** ** Constants of the component (lines 17-22) *)

Definition WIDTH : R := 600.
Definition HEIGHT : R := 400.
Definition NUCLEUS_RADIUS : R := 5.
Definition PARTICLE_RADIUS : R := 2.
Definition MAX_PARTICLES : nat := 100.
Definition EMISSION_INTERVAL : R := 100.

(** ** Data model *)

(** The values of the [useState] hooks as one render sees them. *)
Record Render := mkRender {
  running : bool;
  counter : nat;
  nuclearCharge : R;
  alphaEnergy : R;
  showPaths : bool;
  showHistogram : bool
}.

(** The object literal built by [createParticle]. *)
Record Particle := mkParticle {
  x : R;
  y : R;
  vx : R;
  vy : R;
  impactParameter : R;
  hasReachedNucleus : bool;
  path : list (R * R)
}.

(** The mutable cells: [particlesRef], [histogramDataRef], [startTimeRef],
    the number of [Math.random()] calls made so far, and two counters that
    the program does not hold but the specification speaks of: how many particles
    went through the scattering branch since the last reset, and how many
    of those produced a bin key the histogram does not have. *)
Record Refs := mkRefs {
  particlesRef : list Particle;
  histogramDataRef : gmap Z nat;
  startTimeRef : option R;
  draws : nat;
  deflected : nat;
  dropped : nat
}.

(** ** The histogram object *)

(** [for (let i = 0; i < 180; i += 10) h[i] = 0], with the loop counter
    bounded by fuel. *)
Fixpoint fillHistogram (fuel : nat) (i : Z) (h : gmap Z nat) : option (gmap Z nat) :=
  if (i <? 180)%Z then
    match fuel with
    | O => None
    | S fuel' => fillHistogram fuel' (i + 10)%Z (<[i := 0%nat]> h)
    end
  else Some h.

(** The loop of lines 26-29 and 287-290 leaves after eighteen rounds. *)
Definition initialHistogram : gmap Z nat :=
  default ∅ (fillHistogram 18 0%Z ∅).

(** The eighteen bin keys 0, 10, ..., 170. *)
Definition binKeys : list Z := (λ n : nat, (10 * Z.of_nat n)%Z) <$> seq 0 18.

(** [Math.floor(Math.abs(angle) / 10) * 10] (line 81). *)
Definition binKeyOf (angle : R) : Z := (Zfloor (Rabs angle / 10) * 10)%Z.

(** Lines 82-84: the increment is guarded on the key being defined. *)
Definition recordAngle (h : gmap Z nat) (angle : R) : gmap Z nat :=
  let binKey := binKeyOf angle in
  match h !! binKey with
  | Some c => <[binKey := S c]> h
  | None => h
  end.

(** Sum of all bin counts. *)
Definition histogramTotal (h : gmap Z nat) : nat :=
  map_fold (λ _ c acc, (c + acc)%nat) 0%nat h.

(** Comparisons of numbers are decided. *)
#[global] Instance Rle_decision : RelDecision Rle := Rle_dec.
#[global] Instance Rlt_decision : RelDecision Rlt := Rlt_dec.
#[global] Instance Rgt_decision : RelDecision Rgt := Rgt_dec.
#[global] Instance Req_decision : EqDecision R := Req_dec_T.

Definition set_histogram (h : gmap Z nat) (s : Refs) : Refs :=
  mkRefs (particlesRef s) h (startTimeRef s) (draws s) (deflected s) (dropped s).
Definition set_particles (ps : list Particle) (s : Refs) : Refs :=
  mkRefs ps (histogramDataRef s) (startTimeRef s) (draws s) (deflected s) (dropped s).
Definition set_startTime (t : option R) (s : Refs) : Refs :=
  mkRefs (particlesRef s) (histogramDataRef s) t (draws s) (deflected s) (dropped s).
Definition set_draws (n : nat) (s : Refs) : Refs :=
  mkRefs (particlesRef s) (histogramDataRef s) (startTimeRef s) n (deflected s) (dropped s).

(** Book-keeping of one pass through the scattering branch. *)
Definition note_deflection (binKey : Z) (s : Refs) : Refs :=
  mkRefs (particlesRef s) (histogramDataRef s) (startTimeRef s) (draws s)
    (S (deflected s))
    (match histogramDataRef s !! binKey with
     | Some _ => dropped s
     | None => S (dropped s)
     end).

Section Simulation.

(** The n-th value returned by [Math.random()]. *)
Variable Math_random : nat → R.

(** ** calculateTrajectory (lines 32-69) *)

(** The function takes the number of random draws made so far and returns
    the angle in degrees with the new number of draws: [Math.random()] is
    called only in the branch [impactParameter !== 0]. *)
Definition calculateTrajectory (r : Render) (particle : Particle) (n : nat) : R * nat :=
  let impactParameter := impactParameter particle in
  let Z := nuclearCharge r in
  let energy := alphaEnergy r in
  let k := 1.44 in
  let alphaCharge := 2 in
  let scaleFactor := 5000 / (energy * energy) in
  let '(angle, n') :=
    if decide (impactParameter = 0) then (0, n)
    else
      let tanHalfTheta :=
        (k * Z * alphaCharge) / (2 * energy * Rabs impactParameter * scaleFactor) in
      let angle := 2 * atan tanHalfTheta in
      (angle * (0.9 + Math_random n * 0.2), S n) in
  let angle := angle * (180 / PI) in
  let angle := if decide (impactParameter < 0) then - angle else angle in
  (angle, n').

(** The value that the constant [tanHalfTheta] of line 55 takes, as a
    function of the nuclear charge, the energy and the impact parameter. *)
Definition tanHalfTheta (Z energy b : R) : R :=
  let k := 1.44 in
  let alphaCharge := 2 in
  let scaleFactor := 5000 / (energy * energy) in
  (k * Z * alphaCharge) / (2 * energy * Rabs b * scaleFactor).

(** ** updateParticlePosition (lines 71-108) *)

(** The particle object is mutated in place: the function returns it with
    the value handed to [filter]. *)
Definition updateParticlePosition (r : Render) (particle : Particle) (s : Refs)
    : bool * Particle * Refs :=
  let '(particle, s) :=
    if negb (hasReachedNucleus particle)
       && bool_decide (sqrt ((x particle - WIDTH / 2) ^ 2 + (y particle - HEIGHT / 2) ^ 2)
                       <= NUCLEUS_RADIUS * 3)
    then
      let '(angle, n) := calculateTrajectory r particle (draws s) in
      let binKey := binKeyOf angle in
      let s := note_deflection binKey s in
      let s := set_histogram (recordAngle (histogramDataRef s) angle) s in
      let speed := sqrt (vx particle * vx particle + vy particle * vy particle) in
      let angleRad := angle * (PI / 180) in
      let vx' := speed * cos angleRad + (Math_random n - 0.5) * 0.2 in
      let vy' := speed * sin angleRad + (Math_random (S n) - 0.5) * 0.2 in
      (mkParticle (x particle) (y particle) vx' vy' (impactParameter particle) true
         (path particle),
       set_draws (S (S n)) s)
    else (particle, s) in
  let x' := x particle + vx particle in
  let y' := y particle + vy particle in
  let path' :=
    if showPaths r && bool_decide (length (path particle) < 100)%nat
    then path particle ++ [(x', y')] else path particle in
  (negb (bool_decide (x' < 0) || bool_decide (x' > WIDTH)
         || bool_decide (y' < 0) || bool_decide (y' > HEIGHT)),
   mkParticle x' y' (vx particle) (vy particle) (impactParameter particle)
     (hasReachedNucleus particle) path',
   s).

(** [particlesRef.current.filter(updateParticlePosition)] (line 250): the
    callback runs on every element in order and keeps those it returns
    true for. *)
Fixpoint filterParticles (r : Render) (ps : list Particle) (s : Refs)
    : list Particle * Refs :=
  match ps with
  | [] => ([], s)
  | p :: ps' =>
      let '(keep, p', s') := updateParticlePosition r p s in
      let '(kept, s'') := filterParticles r ps' s' in
      (if keep then p' :: kept else kept, s'')
  end.

(** ** createParticle (lines 110-126) *)

Definition createParticle (n : nat) : Particle * nat :=
  let y := HEIGHT / 2 + (Math_random n - 0.5) * (HEIGHT / 2) in
  let impactParameter := y - HEIGHT / 2 in
  (mkParticle 0 y 1.5 0 impactParameter false [(0, y)], S n).

(** ** animate (lines 236-259) *)

(** [!startTimeRef.current] holds for [null] and for the number 0. *)
Definition falsy (t : option R) : bool :=
  match t with
  | None => true
  | Some v => bool_decide (v = 0)
  end.

(** The guard of line 244. *)
Definition spawns (r : Render) (elapsed : R) (s : Refs) : bool :=
  bool_decide (elapsed > INR (counter r) * EMISSION_INTERVAL)
  && bool_decide (length (particlesRef s) < MAX_PARTICLES)%nat
  && running r.

(** Lines 237-247: the time origin and the spawner.  The second component
    tells whether [setCounter(prevCount => prevCount + 1)] was called. *)
Definition spawnPhase (r : Render) (timestamp : R) (s : Refs) : Refs * bool :=
  let s := if falsy (startTimeRef s) then set_startTime (Some timestamp) s else s in
  let elapsed := timestamp - default 0 (startTimeRef s) in
  if spawns r elapsed s then
    let '(p, n) := createParticle (draws s) in
    (set_draws n (set_particles (particlesRef s ++ [p]) s), true)
  else (s, false).

(** [drawSimulation] only reads the state and paints; it is left out. *)
Definition animate (r : Render) (timestamp : R) (s : Refs) : Refs * bool :=
  let '(s, spawned) := spawnPhase r timestamp s in
  let '(ps, s) := filterParticles r (particlesRef s) s in
  (set_particles ps s, spawned).

(** ** The handlers (lines 275-299) *)

(** Both handlers call state setters; the new hook values are returned
    with the store. *)
Definition handleToggleSimulation (r : Render) (s : Refs) : Render * Refs :=
  let s := if negb (running r) then set_startTime None s else s in
  (mkRender (negb (running r)) (counter r) (nuclearCharge r) (alphaEnergy r)
     (showPaths r) (showHistogram r),
   s).

(** Lines 283-291.  The histogram is emptied and filled by the same loop
    as at the first render.  The two counters of the store that follow the
    specification start again; the count of random draws goes on. *)
Definition handleReset (r : Render) (s : Refs) : Render * Refs :=
  (mkRender false 0 (nuclearCharge r) (alphaEnergy r) (showPaths r) (showHistogram r),
   mkRefs [] initialHistogram None (draws s) 0 0).

(** ** The component as a transition system *)

(** [hooks] are the current values of the state hooks, [refs] the mutable
    cells, and [pendingFrame] the render whose [animate] is registered
    with [requestAnimationFrame], when there is one.  The effect of lines
    261-273 has the dependency list [[running]]: it registers [animate] of
    the render in which [running] became true, and [animate] registers
    itself again (line 257), so the loop keeps the values of that render
    until [running] changes. *)
Record App := mkApp {
  hooks : Render;
  refs : Refs;
  pendingFrame : option Render
}.

Inductive Event :=
  | Frame (timestamp : R)
  | ToggleSimulation
  | Reset
  | SetNuclearCharge (z : R)
  | SetAlphaEnergy (e : R)
  | ToggleShowPaths
  | ToggleShowHistogram.

(** The state after the first render and its effects (lines 5-15, 25-30). *)
Definition mount : App :=
  mkApp (mkRender false 0 79 5 true true)
        (mkRefs [] initialHistogram None 0 0 0)
        None.

(** The effect of lines 261-273, run after a render [new] that follows a
    render [old]. *)
Definition runningEffect (old new : Render) (pending : option Render) : option Render :=
  if bool_decide (running old = running new) then pending
  else if running new then Some new else None.

Definition step (a : App) (e : Event) : App :=
  match e with
  | Frame timestamp =>
      match pendingFrame a with
      | None => a
      | Some r =>
          let '(s, spawned) := animate r timestamp (refs a) in
          let h := hooks a in
          mkApp (mkRender (running h) (if spawned then S (counter h) else counter h)
                   (nuclearCharge h) (alphaEnergy h) (showPaths h) (showHistogram h))
                s
                (if running r then Some r else None)
      end
  | ToggleSimulation =>
      let '(h, s) := handleToggleSimulation (hooks a) (refs a) in
      mkApp h s (runningEffect (hooks a) h (pendingFrame a))
  | Reset =>
      let '(h, s) := handleReset (hooks a) (refs a) in
      mkApp h s (runningEffect (hooks a) h (pendingFrame a))
  | SetNuclearCharge z =>
      let h := hooks a in
      mkApp (mkRender (running h) (counter h) z (alphaEnergy h) (showPaths h)
               (showHistogram h))
            (refs a) (pendingFrame a)
  | SetAlphaEnergy e =>
      let h := hooks a in
      mkApp (mkRender (running h) (counter h) (nuclearCharge h) e (showPaths h)
               (showHistogram h))
            (refs a) (pendingFrame a)
  | ToggleShowPaths =>
      let h := hooks a in
      mkApp (mkRender (running h) (counter h) (nuclearCharge h) (alphaEnergy h)
               (negb (showPaths h)) (showHistogram h))
            (refs a) (pendingFrame a)
  | ToggleShowHistogram =>
      let h := hooks a in
      mkApp (mkRender (running h) (counter h) (nuclearCharge h) (alphaEnergy h)
               (showPaths h) (negb (showHistogram h)))
            (refs a) (pendingFrame a)
  end.

(** What the page can send: frame timestamps are not negative and the two
    sliders stay within their [min] and [max] (lines 340-361). *)
Definition admissible (e : Event) : Prop :=
  match e with
  | Frame timestamp => 0 <= timestamp
  | SetNuclearCharge z => 1 <= z <= 92
  | SetAlphaEnergy e => 1 <= e <= 10
  | _ => True
  end.

Inductive reachable : App → Prop :=
  | reachable_mount : reachable mount
  | reachable_step a e : reachable a → admissible e → reachable (step a e).

Definition run (a : App) (es : list Event) : App := foldl step a es.

(** ** One particle over its life *)

(** The successive values of one particle object: every tick it lives
    through is a call of [updateParticlePosition], under the render and the
    store of that tick. *)
Fixpoint lifetime (ticks : list (Render * Refs)) (p : Particle) : list Particle :=
  match ticks with
  | [] => [p]
  | (r, s) :: ticks' => p :: lifetime ticks' (updateParticlePosition r p s).1.2
  end.

(** How often [hasReachedNucleus] goes from false to true along a list of
    successive values. *)
Fixpoint transitions (l : list Particle) : nat :=
  match l with
  | p :: l' =>
      match l' with
      | q :: _ =>
          ((if negb (hasReachedNucleus p) && hasReachedNucleus q then 1 else 0)
           + transitions l')%nat
      | [] => 0%nat
      end
  | [] => 0%nat
  end.

End Simulation.

(** ** A run with a deflection of more than 180 degrees *)

(** A random source: the first particle is created 0.01 above the axis,
    its deflection gets the factor 0.9 + 0.9·0.2 = 1.08, and every later
    draw is 0.5. *)
Definition skimming (n : nat) : R :=
  match n with
  | O => 0.50005
  | S O => 0.9
  | _ => 0.5
  end.

(** The state with that one particle after [k] ticks of free flight. *)
Definition cruising (k : nat) (path : list (R * R)) (origin : option R) (loop : nat) : App :=
  mkApp (mkRender true 1 79 5 true true)
        (mkRefs [mkParticle (1.5 * INR k) 200.01 1.5 0 0.01 false path]
                initialHistogram origin 1 0 0)
        (Some (mkRender true loop 79 5 true true)).

(** Pause, start again, and let one frame pass. *)
Definition pauseResumeFrame (timestamp : R) : list Event :=
  [ToggleSimulation; ToggleSimulation; Frame timestamp].

(** Start, two frames (the second one creates the particle), 190 ticks of
    free flight with a pause before each, and the tick of the deflection. *)
Definition wideAngleEvents : list Event :=
  [ToggleSimulation; Frame 1000; Frame 1016]
  ++ concat (pauseResumeFrame <$> ((λ i : nat, 1016 + 16 * INR i) <$> seq 1 190))
  ++ pauseResumeFrame 4072.

(** ** What holds of the store throughout *)

(** The histogram has the eighteen keys, and its counts add up to the
    deflections since the last reset less those whose key it lacks. *)
Definition store_invariant (s : Refs) : Prop :=
  dom (histogramDataRef s) = list_to_set (C := gset Z) binKeys
  ∧ (histogramTotal (histogramDataRef s) + dropped s = deflected s)%nat.

(** A frame callback is registered only while [running] is true, and it
    belongs to a render in which [running] was true. *)
Definition loop_invariant (a : App) : Prop :=
  match pendingFrame a with
  | Some r => running r = true ∧ running (hooks a) = true
  | None => True
  end.

(** ** The deflection formula as the specification words it *)

(** scaleFactor = 5000 / E², tan(θ/2) = (k·Z·2) / (2·E·|b|·scaleFactor),
    θ = 2·atan(tan(θ/2)) multiplied by the random factor, converted to
    degrees, negated when b < 0. *)
Definition specDeflection (Z E b factor : R) : R :=
  let scaleFactor := 5000 / E ^ 2 in
  let tanHalf := (1.44 * Z * 2) / (2 * E * Rabs b * scaleFactor) in
  let theta := 2 * atan tanHalf * factor in
  let degrees := theta * 180 / PI in
  if decide (b < 0) then - degrees else degrees.

(** ** Notions for the properties of the running component *)

(** No bin of [h] is lost or lowered in [h']. *)
Definition histogram_le (h h' : gmap Z nat) : Prop :=
  ∀ k c, h !! k = Some c → ∃ c', h' !! k = Some c' ∧ (c <= c')%nat.

(** The events of the two sliders and the two checkboxes. *)
Definition parameterEvent (e : Event) : bool :=
  match e with
  | SetNuclearCharge _ | SetAlphaEnergy _ | ToggleShowPaths | ToggleShowHistogram => true
  | _ => false
  end.

(** What every particle of the store satisfies: it lies on the canvas and
    its recorded path has between 1 and 100 points. *)
Definition stored (p : Particle) : Prop :=
  (0 <= x p <= WIDTH ∧ 0 <= y p <= HEIGHT)
  ∧ (1 <= length (path p) <= 100)%nat.

(** ** drawHistogram (lines 188-234) *)

(** The colour, font and alignment literals of the drawing code. *)
Inductive Colour :=
  | PanelGrey   (* 'rgba(240, 240, 240, 0.7)' *)
  | Black       (* 'black' *)
  | BarBlue.    (* 'rgba(0, 0, 255, 0.6)' *)

Inductive FontSize :=
  | Arial9      (* '9px Arial' *)
  | Arial10.    (* '10px Arial' *)

Inductive Text :=
  | AngleLabel (angle : Z)   (* `${angle}°` *)
  | Title.                   (* 'Scattering Angle Distribution' *)

(** The calls made on the 2D context, in order. *)
Inductive Draw :=
  | FillStyle (c : Colour)
  | StrokeStyle (c : Colour)
  | LineWidth (w : R)
  | Font (f : FontSize)
  | TextAlignCenter
  | FillRect (x y w h : R)
  | BeginPath
  | MoveTo (x y : R)
  | LineTo (x y : R)
  | Stroke
  | FillText (t : Text) (x y : R).

(** The keys of the histogram object in the order in which
    [Object.entries] and [Object.values] go through them: integer keys in
    ascending order. *)
Definition histogramKeys (h : gmap Z nat) : list Z :=
  merge_sort Z.le (elements (dom h)).

Definition histogramEntries (h : gmap Z nat) : list (Z * nat) :=
  omap (λ k, (λ c, (k, c)) <$> h !! k) (histogramKeys h).

(** [Math.max(1, ...Object.values(histogramDataRef.current))]. *)
Definition maxValue (h : gmap Z nat) : nat :=
  foldr Nat.max 1%nat ((histogramEntries h).*2).

Definition histogramHeight : R := 100.
Definition histogramWidth : R := 180.
Definition histogramX : R := WIDTH - histogramWidth - 20.
Definition histogramY : R := 20.

(** The rectangle of one bar (lines 212-217): x, y, width, height. *)
Definition barRect (maxValue : nat) (index count : nat) : R * R * R * R :=
  let barHeight := (INR count / INR maxValue) * histogramHeight in
  let barWidth := histogramWidth / 18 in
  let x := histogramX + (INR index * barWidth) in
  let y := histogramY + histogramHeight - barHeight in
  (x, y, barWidth - 1, barHeight).

(** The body of the [forEach] of lines 211-227. *)
Definition drawBar (maxValue : nat) (index : nat) (entry : Z * nat) : list Draw :=
  let '(angle, count) := entry in
  let '(x, y, w, barHeight) := barRect maxValue index count in
  let barWidth := histogramWidth / 18 in
  FillRect x y w barHeight
  :: (if bool_decide (index mod 3 = 0)%nat
      then [FillStyle Black; Font Arial9; TextAlignCenter;
            FillText (AngleLabel angle) (x + barWidth / 2)
              (histogramY + histogramHeight + 12);
            FillStyle BarBlue]
      else []).

Definition drawHistogram (h : gmap Z nat) : list Draw :=
  [FillStyle PanelGrey;
   FillRect (histogramX - 10) (histogramY - 10) (histogramWidth + 20) (histogramHeight + 30)]
  ++ [StrokeStyle Black; LineWidth 1; BeginPath;
      MoveTo histogramX (histogramY + histogramHeight);
      LineTo (histogramX + histogramWidth) (histogramY + histogramHeight);
      Stroke]
  ++ [FillStyle BarBlue]
  ++ concat (imap (drawBar (maxValue h)) (histogramEntries h))
  ++ [FillStyle Black; Font Arial10; TextAlignCenter;
      FillText Title (histogramX + histogramWidth / 2) (histogramY - 2)].

(** The angle labels among the calls, in the order they are written. *)
Definition angleLabels (ds : list Draw) : list Z :=
  omap (λ d, match d with
             | FillText (AngleLabel angle) _ _ => Some angle
             | _ => None
             end) ds.

(** ** Tactics for evaluating the component on given numbers *)

Ltac unfold_constants :=
  unfold EMISSION_INTERVAL, MAX_PARTICLES, WIDTH, HEIGHT, NUCLEUS_RADIUS in *.

(** Settles every comparison of the goal that linear arithmetic decides. *)
Ltac decide_numbers :=
  repeat match goal with
  | |- context [bool_decide ?P] =>
      first [ rewrite (bool_decide_eq_true_2 P) by (simpl; first [lra | lia | done])
            | rewrite (bool_decide_eq_false_2 P) by (simpl; first [lra | lia | done]) ]
  end.

(** Two states are the same when their fields are equal numbers. *)
Ltac same_state :=
  unfold set_particles, set_draws, set_startTime, set_histogram; cbn;
  repeat first [reflexivity | lra | progress f_equal].

(** * Facts about the numbers involved *)

Lemma PI_lower : 3.135 < PI.
Proof.
  destruct (PI_2_3_7_ineq 0) as [H _].
  unfold PI_2_3_7_tg, tg_alt, Ratan_seq in H. simpl in H. lra.
Qed.

Lemma PI_upper : PI < 3.143.
Proof.
  destruct (PI_2_3_7_ineq 1) as [_ H].
  unfold PI_2_3_7_tg, tg_alt, Ratan_seq in H. simpl in H. lra.
Qed.

Lemma atan_pos t : 0 < t → 0 < atan t.
Proof. intros H. rewrite <- atan_0. by apply atan_increasing. Qed.

Lemma cos_atan_pos t : 0 < cos (atan t).
Proof. destruct (atan_bound t). apply cos_gt_0; lra. Qed.

Lemma sin_atan t : sin (atan t) = t * cos (atan t).
Proof.
  pose proof (cos_atan_pos t).
  rewrite <- (tan_atan t) at 2. unfold tan. field. lra.
Qed.

(** The arc tangent of a positive number is below the number. *)
Lemma atan_lt_self t : 0 < t → atan t < t.
Proof.
  intros Ht.
  pose proof (atan_pos t Ht) as Hy.
  destruct (atan_bound t) as [Hb1 Hb2].
  pose proof (cos_atan_pos t) as Hc.
  assert (Hs : atan t - atan t ^ 3 / 6 <= sin (atan t)).
  { destruct (sin_bound (atan t) 0) as [Hl _]; [lra| pose proof PI_RGT_0; lra|].
    unfold sin_approx, sin_term in Hl. simpl in Hl. lra. }
  assert (Hcu : cos (atan t) <= 1 - atan t ^ 2 / 2 + atan t ^ 4 / 24).
  { destruct (cos_bound (atan t) 0) as [_ Hu]; [lra|lra|].
    unfold cos_approx, cos_term in Hu. simpl in Hu. lra. }
  rewrite sin_atan in Hs.
  assert (Hy2 : atan t < 2) by (pose proof PI_4; lra).
  destruct (Rlt_le_dec (atan t) t) as [|Hle]; [assumption|exfalso].
  assert (t * cos (atan t) <= atan t * (1 - atan t ^ 2 / 2 + atan t ^ 4 / 24)).
  { apply Rmult_le_compat; lra. }
  assert (atan t ^ 2 < 4) by nra.
  assert (0 < atan t ^ 3) by (apply pow_lt; lra).
  nra.
Qed.

(** And above the number less half its cube. *)
Lemma atan_lower t : 0 < t → t * (1 - t * t / 2) < atan t.
Proof.
  intros Ht.
  pose proof (atan_lt_self t Ht) as Hlt.
  pose proof (atan_pos t Ht) as Hy.
  destruct (atan_bound t) as [Hb1 Hb2].
  assert (Hc : t * cos (atan t) < atan t).
  { rewrite <- sin_atan. by apply sin_lt_x. }
  assert (Hcos : 1 - atan t * atan t / 2 <= cos (atan t)).
  { destruct (cos_bound (atan t) 0) as [Hl _]; [lra|lra|].
    unfold cos_approx, cos_term in Hl. simpl in Hl. lra. }
  assert (H1 : atan t * atan t <= t * t) by (apply Rmult_le_compat; lra).
  assert (H2 : t * (1 - t * t / 2) <= t * (1 - atan t * atan t / 2)).
  { apply Rmult_le_compat_l; lra. }
  assert (H3 : t * (1 - atan t * atan t / 2) <= t * cos (atan t)).
  { apply Rmult_le_compat_l; lra. }
  lra.
Qed.

(** For a large argument the arc tangent is close to a right angle. *)
Lemma atan_upper_gap t : 0 < t → PI / 2 - / t < atan t.
Proof.
  intros Ht.
  assert (Hi : 0 < / t) by by apply Rinv_0_lt_compat.
  pose proof (atan_inv (/ t) Hi) as Hinv.
  rewrite Rinv_inv in Hinv.
  pose proof (atan_lt_self (/ t) Hi). lra.
Qed.

(** The quotient of line 55 in lowest terms: it grows with the energy. *)
Lemma tanHalfTheta_closed Z E b :
  E ≠ 0 → b ≠ 0 → tanHalfTheta Z E b = 1.44 * Z * E / (5000 * Rabs b).
Proof.
  intros HE Hb. unfold tanHalfTheta.
  assert (Rabs b ≠ 0) by by apply Rabs_no_R0.
  field. done.
Qed.

Lemma tanHalfTheta_pos Z E b : 0 < Z → 0 < E → b ≠ 0 → 0 < tanHalfTheta Z E b.
Proof.
  intros HZ HE Hb. rewrite tanHalfTheta_closed by lra.
  assert (0 < Rabs b) by by apply Rabs_pos_lt.
  apply Rdiv_lt_0_compat; nra.
Qed.

(** * calculateTrajectory *)

Section Trajectory.

Variable Math_random : nat → R.

(** The angle of a particle off the axis, before the sign is set. *)
Lemma calculateTrajectory_nonzero r p n :
  impactParameter p ≠ 0 →
  calculateTrajectory Math_random r p n =
    (let angle :=
       2 * atan (tanHalfTheta (nuclearCharge r) (alphaEnergy r) (impactParameter p))
       * (0.9 + Math_random n * 0.2) * (180 / PI) in
     if decide (impactParameter p < 0) then - angle else angle,
     S n).
Proof.
  intros Hb. unfold calculateTrajectory.
  destruct (decide (impactParameter p = 0)) as [|_]; [done|]. reflexivity.
Qed.

Lemma calculateTrajectory_abs r p n :
  impactParameter p ≠ 0 → 0 < nuclearCharge r → 0 < alphaEnergy r →
  0 <= Math_random n →
  Rabs (calculateTrajectory Math_random r p n).1 =
    2 * atan (tanHalfTheta (nuclearCharge r) (alphaEnergy r) (impactParameter p))
    * (0.9 + Math_random n * 0.2) * (180 / PI).
Proof.
  intros Hb HZ HE Hu. rewrite calculateTrajectory_nonzero by done. simpl.
  pose proof (atan_pos _ (tanHalfTheta_pos _ _ _ HZ HE Hb)) as Ha.
  pose proof PI_RGT_0 as Hpi.
  assert (0 < 180 / PI) by (apply Rdiv_lt_0_compat; lra).
  set (a := atan _) in *.
  assert (0 <= 2 * a * (0.9 + Math_random n * 0.2) * (180 / PI)).
  { apply Rmult_le_pos; [apply Rmult_le_pos|]; nra. }
  destruct (decide (impactParameter p < 0)).
  - rewrite Rabs_Ropp. by apply Rabs_pos_eq.
  - by apply Rabs_pos_eq.
Qed.

(** C2. For a particle with impact parameter b ≠ 0, [calculateTrajectory]
    returns the angle of the specification's formula: scaleFactor = 5000/E²,
    tan(θ/2) = (1.44·Z·2)/(2·E·|b|·scaleFactor), θ = 2·atan(tan(θ/2)) times a
    random factor in [0.9, 1.1], in degrees, negated exactly when b < 0.
    The factor is 0.9 + 0.2·u for the value u that [Math.random()]
    returns. *)
Theorem calculateTrajectory_formula r p n :
  impactParameter p ≠ 0 →
  0 <= Math_random n < 1 →
  ∃ factor, 0.9 <= factor <= 1.1 ∧
    (calculateTrajectory Math_random r p n).1 =
      specDeflection (nuclearCharge r) (alphaEnergy r) (impactParameter p) factor.
Proof.
  intros Hb Hu. exists (0.9 + Math_random n * 0.2). split; [lra|].
  rewrite calculateTrajectory_nonzero by done. simpl.
  unfold specDeflection, tanHalfTheta.
  replace (alphaEnergy r ^ 2) with (alphaEnergy r * alphaEnergy r) by ring.
  pose proof PI_neq0.
  destruct (decide (impactParameter p < 0)); field; done.
Qed.

(** C4. With impact parameter 0 the function returns exactly 0 whatever the
    nuclear charge and the energy are (also an energy of 0), and draws no
    random number; it is a total function, no error value exists. *)
Theorem calculateTrajectory_zero_impact r p n :
  impactParameter p = 0 →
  calculateTrajectory Math_random r p n = (0, n).
Proof.
  intros Hb. unfold calculateTrajectory. rewrite Hb.
  destruct (decide (0 = 0)) as [_|]; [|done].
  destruct (decide (0 < 0)) as [|_]; [lra|].
  f_equal. lra.
Qed.

(** With the charge, the impact parameter and the random factor fixed, a
    higher energy gives a strictly larger deflection: the scale factor of
    line 48 puts the square of the energy into the numerator. *)
Lemma deflection_grows_with_energy r1 r2 p n :
  impactParameter p ≠ 0 →
  0 < nuclearCharge r1 → nuclearCharge r2 = nuclearCharge r1 →
  0 < alphaEnergy r1 < alphaEnergy r2 →
  0 <= Math_random n →
  Rabs (calculateTrajectory Math_random r1 p n).1
  < Rabs (calculateTrajectory Math_random r2 p n).1.
Proof.
  intros Hb HZ HZ2 HE Hu.
  rewrite !calculateTrajectory_abs by (rewrite ?HZ2; done || lra).
  rewrite HZ2.
  pose proof PI_RGT_0 as Hpi.
  assert (0 < 180 / PI) by (apply Rdiv_lt_0_compat; lra).
  assert (Hlt : tanHalfTheta (nuclearCharge r1) (alphaEnergy r1) (impactParameter p)
                < tanHalfTheta (nuclearCharge r1) (alphaEnergy r2) (impactParameter p)).
  { rewrite !tanHalfTheta_closed by lra.
    assert (0 < Rabs (impactParameter p)) by by apply Rabs_pos_lt.
    apply Rmult_lt_compat_r; [apply Rinv_0_lt_compat; lra | nra]. }
  apply atan_increasing in Hlt.
  apply Rmult_lt_compat_r; [done|].
  apply Rmult_lt_compat_r; lra.
Qed.

End Trajectory.

(** The angle in degrees of a positive tangent value, within bounds that
    can be evaluated. *)
Lemma degrees_bounds t :
  0 < t →
  2 * (t * (1 - t * t / 2)) * (180 / 3.143) < 2 * atan t * (180 / PI)
  ∧ 2 * atan t * (180 / PI) < 2 * t * (180 / 3.135).
Proof.
  intros Ht.
  pose proof (atan_lower t Ht) as Hl. pose proof (atan_lt_self t Ht) as Hu.
  pose proof (atan_pos t Ht) as Hp.
  pose proof PI_lower as Hpl. pose proof PI_upper as Hpu.
  assert (H1 : 180 / 3.143 < 180 / PI).
  { apply Rmult_lt_compat_l; [lra|]. apply Rinv_lt_contravar; nra. }
  assert (H2 : 180 / PI < 180 / 3.135).
  { apply Rmult_lt_compat_l; [lra|]. apply Rinv_lt_contravar; nra. }
  assert (0 < 180 / 3.143) by lra.
  split.
  - destruct (Rle_lt_dec (t * (1 - t * t / 2)) 0) as [Hn|Hn]; nra.
  - nra.
Qed.

Lemma binKeyOf_small angle : Rabs angle < 10 → binKeyOf angle = 0%Z.
Proof.
  intros H. unfold binKeyOf.
  rewrite (Zfloor_eq 0); [done|]. pose proof (Rabs_pos angle). simpl. lra.
Qed.

(** C1. The code breaks the claim: with Z = 79, b = 40 and the random
    factor fixed at 1, raising the energy from 5 to 10 raises the
    deflection from below 0.33 degrees to above 0.64 degrees. *)
Theorem energy_raises_deflection :
  let Math_random := λ _ : nat, 0.5 in
  let p := mkParticle 286.5 240 1.5 0 40 false [] in
  let low := (calculateTrajectory Math_random (mkRender true 0 79 5 true true) p 0).1 in
  let high := (calculateTrajectory Math_random (mkRender true 0 79 10 true true) p 0).1 in
  Rabs low < 0.33 ∧ 0.64 < Rabs high ∧ Rabs low < Rabs high.
Proof.
  intros Math_random p low high.
  assert (Hlow : Rabs low = 2 * atan (tanHalfTheta 79 5 40) * (180 / PI)).
  { unfold low. rewrite calculateTrajectory_abs by (simpl; unfold Math_random; lra).
    simpl. unfold Math_random. replace (0.9 + 0.5 * 0.2) with 1 by lra. ring. }
  assert (Hhigh : Rabs high = 2 * atan (tanHalfTheta 79 10 40) * (180 / PI)).
  { unfold high. rewrite calculateTrajectory_abs by (simpl; unfold Math_random; lra).
    simpl. unfold Math_random. replace (0.9 + 0.5 * 0.2) with 1 by lra. ring. }
  assert (Hb : Rabs 40 = 40) by (apply Rabs_pos_eq; lra).
  assert (H5 : tanHalfTheta 79 5 40 = 0.002844).
  { rewrite tanHalfTheta_closed by lra. rewrite Hb. lra. }
  assert (H10 : tanHalfTheta 79 10 40 = 0.005688).
  { rewrite tanHalfTheta_closed by lra. rewrite Hb. lra. }
  rewrite Hlow, Hhigh, H5, H10.
  destruct (degrees_bounds 0.002844) as [_ Hu]; [lra|].
  destruct (degrees_bounds 0.005688) as [Hl _]; [lra|].
  lra.
Qed.

(** C9, as stated, fails: the quotient is 227.52/80000, and the angle
    before the random factor stays below 0.33 degrees. *)
Lemma scenario_value_not_as_stated :
  tanHalfTheta 79 5 40 = (1.44 * 79 * 2) / (2 * 5 * 40 * (5000 / 25))
  ∧ tanHalfTheta 79 5 40 ≠ 227.52 / 40000
  ∧ 2 * atan (tanHalfTheta 79 5 40) * (180 / PI) < 0.33.
Proof.
  assert (Hb : Rabs 40 = 40) by (apply Rabs_pos_eq; lra).
  assert (H5 : tanHalfTheta 79 5 40 = 0.002844).
  { rewrite tanHalfTheta_closed by lra. rewrite Hb. lra. }
  split; [|split].
  - rewrite H5. lra.
  - rewrite H5. lra.
  - rewrite H5. destruct (degrees_bounds 0.002844) as [_ Hu]; lra.
Qed.

(** C9, amended. For Z = 79, E = 5 and impact parameter 40 the quotient
    is (1.44·79·2)/(2·5·40·(5000/25)) = 227.52/80000 = 0.002844, the angle
    before the random factor lies between 0.325 and 0.327 degrees, and the
    bin key of the returned angle is 0 for every random factor between 0.9
    and 1.1. *)
Theorem scenario_bin_zero (Math_random : nat → R) r p n :
  nuclearCharge r = 79 → alphaEnergy r = 5 → impactParameter p = 40 →
  0 <= Math_random n <= 1 →
  tanHalfTheta 79 5 40 = 227.52 / 80000
  ∧ 0.325 < 2 * atan (tanHalfTheta 79 5 40) * (180 / PI) < 0.327
  ∧ binKeyOf (calculateTrajectory Math_random r p n).1 = 0%Z.
Proof.
  intros HZ HE Hb Hu.
  assert (Habs : Rabs 40 = 40) by (apply Rabs_pos_eq; lra).
  assert (H5 : tanHalfTheta 79 5 40 = 0.002844).
  { rewrite tanHalfTheta_closed by lra. rewrite Habs. lra. }
  destruct (degrees_bounds 0.002844) as [Hl Hh]; [lra|].
  split; [rewrite H5; lra|]. split; [rewrite H5; lra|].
  apply binKeyOf_small.
  rewrite calculateTrajectory_abs by (rewrite ?HZ, ?HE, ?Hb; lra).
  rewrite HZ, HE, Hb, H5.
  set (d := 2 * atan 0.002844 * (180 / PI)) in *.
  replace (2 * atan 0.002844 * (0.9 + Math_random n * 0.2) * (180 / PI))
    with (d * (0.9 + Math_random n * 0.2)) by (unfold d; ring).
  nra.
Qed.

Lemma scenario_bin_zero_witness :
  binKeyOf (calculateTrajectory (λ _, 0.5) (mkRender true 0 79 5 true true)
              (mkParticle 286.5 240 1.5 0 40 false []) 0).1 = 0%Z.
Proof.
  apply (scenario_bin_zero (λ _, 0.5) (mkRender true 0 79 5 true true)
           (mkParticle 286.5 240 1.5 0 40 false []) 0); simpl; try reflexivity; lra.
Defined.

Lemma calculateTrajectory_formula_witness :
  ∃ factor, 0.9 <= factor <= 1.1 ∧
    (calculateTrajectory (λ _, 0.5) (mkRender true 0 79 5 true true)
       (mkParticle 286.5 240 1.5 0 40 false []) 0).1 = specDeflection 79 5 40 factor.
Proof.
  apply (calculateTrajectory_formula (λ _, 0.5) (mkRender true 0 79 5 true true)
           (mkParticle 286.5 240 1.5 0 40 false []) 0); simpl; lra.
Defined.

Lemma calculateTrajectory_zero_impact_witness :
  calculateTrajectory (λ _, 0.5) (mkRender true 0 92 0 true true)
    (mkParticle 286.5 200 1.5 0 0 false []) 7 = (0, 7%nat).
Proof.
  apply (calculateTrajectory_zero_impact (λ _, 0.5) (mkRender true 0 92 0 true true)
           (mkParticle 286.5 200 1.5 0 0 false []) 7). reflexivity.
Defined.

(** * The histogram *)

Lemma fillHistogram_terminates : fillHistogram 18 0%Z ∅ = Some initialHistogram.
Proof. reflexivity. Qed.

Lemma initialHistogram_eq :
  initialHistogram = gset_to_gmap 0%nat (list_to_set binKeys).
Proof. by vm_compute. Qed.

Lemma initialHistogram_dom : dom initialHistogram = list_to_set (C := gset Z) binKeys.
Proof. rewrite initialHistogram_eq. apply dom_gset_to_gmap. Qed.

Lemma initialHistogram_lookup k :
  initialHistogram !! k = if decide (k ∈ binKeys) then Some 0%nat else None.
Proof.
  rewrite initialHistogram_eq, lookup_gset_to_gmap.
  destruct (decide (k ∈ binKeys)) as [Hin|Hin].
  - rewrite option_guard_True; [done|]. by apply elem_of_list_to_set.
  - rewrite option_guard_False; [done|]. by rewrite elem_of_list_to_set.
Qed.

Lemma initialHistogram_total : histogramTotal initialHistogram = 0%nat.
Proof. by vm_compute. Qed.

Lemma binKeys_range k : k ∈ binKeys → (0 <= k < 180)%Z.
Proof.
  unfold binKeys. intros (n & -> & Hn)%list_elem_of_fmap.
  apply elem_of_seq in Hn. lia.
Qed.

Lemma recordAngle_dom h angle : dom (recordAngle h angle) = dom h.
Proof.
  unfold recordAngle. destruct (h !! binKeyOf angle) eqn:Hk; [|done].
  apply dom_insert_lookup_L. by eexists.
Qed.

Lemma histogramTotal_increment h k c :
  h !! k = Some c → histogramTotal (<[k := S c]> h) = S (histogramTotal h).
Proof.
  intros Hk. unfold histogramTotal.
  rewrite <- (insert_delete_eq h k (S c)).
  rewrite map_fold_insert_L; [|intros; lia|by rewrite lookup_delete_eq].
  rewrite (map_fold_delete_L _ _ k c h); [lia|intros; lia|done].
Qed.

Lemma recordAngle_total h angle :
  histogramTotal (recordAngle h angle) =
    match h !! binKeyOf angle with
    | Some _ => S (histogramTotal h)
    | None => histogramTotal h
    end.
Proof.
  unfold recordAngle. destruct (h !! binKeyOf angle) eqn:Hk; [|done].
  by apply histogramTotal_increment.
Qed.

(** C5. Recording an angle into a histogram with the eighteen keys
    0, 10, ..., 170 adds 1 to the bin floor(|angle|/10)*10 and leaves every
    other bin as it was; when that key is not one of the eighteen, the
    histogram is unchanged. *)
Theorem recordAngle_spec (h : gmap Z nat) angle :
  dom h = list_to_set binKeys →
  let key := (Zfloor (Rabs angle / 10) * 10)%Z in
  (key ∈ binKeys →
     ∃ c, h !! key = Some c
          ∧ recordAngle h angle !! key = Some (S c)
          ∧ ∀ k, k ≠ key → recordAngle h angle !! k = h !! k)
  ∧ (key ∉ binKeys → recordAngle h angle = h).
Proof.
  intros Hdom key. unfold recordAngle. change (binKeyOf angle) with key.
  assert (Hin : key ∈ binKeys ↔ is_Some (h !! key)).
  { rewrite <- elem_of_dom, Hdom. by rewrite elem_of_list_to_set. }
  split.
  - intros [c Hc]%Hin. exists c. rewrite Hc. split; [done|]. split.
    + apply lookup_insert_eq.
    + intros k Hne. by apply lookup_insert_ne.
  - intros Hnot. destruct (h !! key) eqn:Hk; [|done].
    exfalso. apply Hnot, Hin. by eexists.
Qed.

Lemma recordAngle_spec_witness :
  (∃ c, initialHistogram !! 20%Z = Some c
        ∧ recordAngle initialHistogram 25 !! 20%Z = Some (S c)
        ∧ ∀ k, k ≠ 20%Z → recordAngle initialHistogram 25 !! k = initialHistogram !! k)
  ∧ recordAngle initialHistogram 185 = initialHistogram.
Proof.
  assert (H25 : (Zfloor (Rabs 25 / 10) * 10)%Z = 20%Z).
  { rewrite (Zfloor_eq 2); [done|]. rewrite Rabs_pos_eq by lra. simpl. lra. }
  assert (H185 : (Zfloor (Rabs 185 / 10) * 10)%Z = 180%Z).
  { rewrite (Zfloor_eq 18); [done|]. rewrite Rabs_pos_eq by lra. simpl. lra. }
  split.
  - rewrite <- H25.
    apply (recordAngle_spec initialHistogram 25 initialHistogram_dom).
    rewrite H25. apply (bool_decide_unpack _). by vm_compute.
  - apply (recordAngle_spec initialHistogram 185 initialHistogram_dom).
    rewrite H185. intros H%binKeys_range. lia.
Defined.

(** * The store under the physics step *)

Section Engine.

Variable Math_random : nat → R.

(** A call of [updateParticlePosition] leaves the histogram and the two
    counters alone, or goes once through the scattering branch. *)
Lemma updateParticlePosition_store r p s :
  let s' := (updateParticlePosition Math_random r p s).2 in
  (histogramDataRef s' = histogramDataRef s
   ∧ deflected s' = deflected s ∧ dropped s' = dropped s)
  ∨ (∃ angle,
       hasReachedNucleus p = false
       ∧ angle = (calculateTrajectory Math_random r p (draws s)).1
       ∧ histogramDataRef s' = recordAngle (histogramDataRef s) angle
       ∧ deflected s' = S (deflected s)
       ∧ dropped s' = match histogramDataRef s !! binKeyOf angle with
                      | Some _ => dropped s
                      | None => S (dropped s)
                      end).
Proof.
  unfold updateParticlePosition.
  destruct (negb (hasReachedNucleus p) && bool_decide _) eqn:Hnear.
  - right. destruct (calculateTrajectory Math_random r p (draws s)) as [angle n] eqn:Hc.
    exists angle. simpl.
    apply andb_true_iff in Hnear as [Hh _]. apply negb_true_iff in Hh. done.
  - left. done.
Qed.

Lemma updateParticlePosition_invariant r p s :
  store_invariant s → store_invariant (updateParticlePosition Math_random r p s).2.
Proof.
  intros [Hdom Hsum].
  destruct (updateParticlePosition_store r p s) as
    [(Hh & Hd & Hdr) | (angle & _ & _ & Hh & Hd & Hdr)]; unfold store_invariant.
  - by rewrite Hh, Hd, Hdr.
  - rewrite Hh, Hd, Hdr, recordAngle_dom, recordAngle_total.
    split; [done|]. destruct (histogramDataRef s !! binKeyOf angle); lia.
Qed.

Lemma filterParticles_invariant r ps s :
  store_invariant s → store_invariant (filterParticles Math_random r ps s).2.
Proof.
  revert s. induction ps as [|p ps IH]; intros s Hs; [done|]. simpl.
  pose proof (updateParticlePosition_invariant r p s Hs) as Hs'.
  destruct (updateParticlePosition Math_random r p s) as [[keep p'] s'].
  specialize (IH s' Hs').
  destruct (filterParticles Math_random r ps s') as [kept s'']. done.
Qed.

Lemma spawnPhase_invariant r timestamp s :
  store_invariant s → store_invariant (spawnPhase Math_random r timestamp s).1.
Proof.
  intros Hs. unfold spawnPhase.
  destruct (falsy (startTimeRef s)); simpl;
    match goal with |- context [spawns ?a ?b ?c] => destruct (spawns a b c) end; done.
Qed.

Lemma animate_invariant r timestamp s :
  store_invariant s → store_invariant (animate Math_random r timestamp s).1.
Proof.
  intros Hs. unfold animate.
  pose proof (spawnPhase_invariant r timestamp s Hs) as H1.
  destruct (spawnPhase Math_random r timestamp s) as [s1 spawned].
  pose proof (filterParticles_invariant r (particlesRef s1) s1 H1) as H2.
  destruct (filterParticles Math_random r (particlesRef s1) s1) as [ps s2]. done.
Qed.

Lemma step_store_invariant a e :
  store_invariant (refs a) → store_invariant (refs (step Math_random a e)).
Proof.
  intros Hs. destruct e as [timestamp| | | | | |]; simpl.
  - destruct (pendingFrame a) as [r|]; [|done].
    pose proof (animate_invariant r timestamp (refs a) Hs) as H.
    destruct (animate Math_random r timestamp (refs a)) as [s spawned]. done.
  - destruct (negb (running (hooks a))); done.
  - split; [apply initialHistogram_dom | simpl; by rewrite initialHistogram_total].
  - done.
  - done.
  - done.
  - done.
Qed.

Lemma step_loop_invariant a e :
  loop_invariant a → loop_invariant (step Math_random a e).
Proof.
  unfold loop_invariant. intros Ha.
  destruct e as [timestamp| | | | | |]; simpl.
  - destruct (pendingFrame a) as [r|] eqn:Hp; [|by rewrite Hp].
    destruct (animate Math_random r timestamp (refs a)) as [s spawned]. simpl.
    destruct Ha as [Hr Hh]. by rewrite Hr.
  - unfold runningEffect. simpl.
    destruct (running (hooks a)) eqn:Hr; simpl; done.
  - unfold runningEffect. simpl.
    destruct (running (hooks a)) eqn:Hr; simpl; [done|].
    destruct (pendingFrame a) as [r|]; [|done]. destruct Ha. congruence.
  - done.
  - done.
  - done.
  - done.
Qed.

Lemma reachable_store_invariant a :
  reachable Math_random a → store_invariant (refs a).
Proof.
  induction 1 as [|a e _ IH _].
  - split; [apply initialHistogram_dom | simpl; by rewrite initialHistogram_total].
  - by apply step_store_invariant.
Qed.

Lemma reachable_loop_invariant a :
  reachable Math_random a → loop_invariant a.
Proof.
  induction 1 as [|a e _ IH _]; [done|]. by apply step_loop_invariant.
Qed.

(** C10. In every reachable state the key set of the histogram is exactly
    {0, 10, 20, ..., 170}: the first render and a reset build these
    eighteen keys, and recording an angle adds none. *)
Theorem histogram_keys a :
  reachable Math_random a →
  dom (histogramDataRef (refs a)) =
    list_to_set (C := gset Z)
      [0; 10; 20; 30; 40; 50; 60; 70; 80; 90; 100; 110; 120; 130; 140; 150; 160; 170]%Z.
Proof. intros Ha. by destruct (reachable_store_invariant a Ha) as [-> _]. Qed.

(** C3, amended. In every reachable state the sum over the eighteen bins
    equals the number of particles deflected since the last reset less
    those whose bin key was not one of the eighteen keys; in particular it
    never exceeds the number of deflected particles. *)
Theorem histogram_total_counts_recorded a :
  reachable Math_random a →
  (histogramTotal (histogramDataRef (refs a)) + dropped (refs a) = deflected (refs a))%nat
  ∧ (histogramTotal (histogramDataRef (refs a)) <= deflected (refs a))%nat.
Proof. intros Ha. destruct (reachable_store_invariant a Ha) as [_ H]. lia. Qed.

(** C8. After a reset the simulation is stopped ([running] is false and no
    frame callback is registered), the particle store is empty, each of
    the eighteen bins is zero, the counter of emitted particles is 0 and
    the time origin is cleared. *)
Theorem reset_clears a :
  reachable Math_random a →
  let a' := step Math_random a Reset in
  running (hooks a') = false
  ∧ pendingFrame a' = None
  ∧ particlesRef (refs a') = []
  ∧ dom (histogramDataRef (refs a')) = list_to_set (C := gset Z) binKeys
  ∧ (∀ k, k ∈ binKeys → histogramDataRef (refs a') !! k = Some 0%nat)
  ∧ counter (hooks a') = 0%nat
  ∧ startTimeRef (refs a') = None.
Proof.
  intros Ha a'. pose proof (reachable_loop_invariant a Ha) as Hl.
  unfold a'. simpl. split_and!; try done.
  - unfold runningEffect. simpl. unfold loop_invariant in Hl.
    destruct (running (hooks a)) eqn:Hr; simpl; [done|].
    destruct (pendingFrame a) as [r|]; [|done]. destruct Hl. congruence.
  - intros k Hk. rewrite initialHistogram_lookup. by rewrite decide_True.
Qed.

End Engine.

(** * One particle over its life *)

Section Particle.

Variable Math_random : nat → R.

(** What one call of [updateParticlePosition] does to the flag and to the
    velocity. *)
Lemma updateParticlePosition_velocity r p s :
  let p' := (updateParticlePosition Math_random r p s).1.2 in
  (hasReachedNucleus p = true → hasReachedNucleus p' = true)
  ∧ (hasReachedNucleus p' = hasReachedNucleus p → vx p' = vx p ∧ vy p' = vy p).
Proof.
  unfold updateParticlePosition.
  destruct (hasReachedNucleus p) eqn:Hh; simpl.
  - rewrite Hh. done.
  - destruct (bool_decide _); simpl.
    + destruct (calculateTrajectory Math_random r p (draws s)) as [angle n]. simpl.
      split; done.
    + rewrite Hh. done.
Qed.

Lemma lifetime_head ticks p : ∃ tl, lifetime Math_random ticks p = p :: tl.
Proof. destruct ticks as [|[r s] ticks]; simpl; eauto. Qed.

Lemma transitions_cons p q l :
  transitions (p :: q :: l) =
    ((if negb (hasReachedNucleus p) && hasReachedNucleus q then 1 else 0)
     + transitions (q :: l))%nat.
Proof. reflexivity. Qed.

Lemma transitions_after_deflection ticks p :
  hasReachedNucleus p = true → transitions (lifetime Math_random ticks p) = 0%nat.
Proof.
  revert p. induction ticks as [|[r s] ticks IH]; intros p Hp; [done|]. simpl lifetime.
  destruct (updateParticlePosition_velocity r p s) as [Hkeep _].
  specialize (Hkeep Hp).
  destruct (lifetime_head ticks (updateParticlePosition Math_random r p s).1.2)
    as [tl Htl].
  rewrite Htl, transitions_cons, <- Htl, (IH _ Hkeep), Hp. done.
Qed.

Lemma transitions_le_1 ticks p : (transitions (lifetime Math_random ticks p) <= 1)%nat.
Proof.
  revert p. induction ticks as [|[r s] ticks IH]; intros p; [simpl; lia|]. simpl lifetime.
  set (p' := (updateParticlePosition Math_random r p s).1.2).
  destruct (lifetime_head ticks p') as [tl Htl].
  rewrite Htl, transitions_cons, <- Htl.
  destruct (hasReachedNucleus p') eqn:Hp'.
  - rewrite (transitions_after_deflection ticks p' Hp').
    destruct (negb (hasReachedNucleus p)); simpl; lia.
  - rewrite andb_false_r. specialize (IH p'). lia.
Qed.

Lemma lifetime_successive ticks p i p1 p2 :
  lifetime Math_random ticks p !! i = Some p1 →
  lifetime Math_random ticks p !! S i = Some p2 →
  ∃ r s, p2 = (updateParticlePosition Math_random r p1 s).1.2.
Proof.
  revert p i. induction ticks as [|[r s] ticks IH]; intros p i H1 H2.
  - destruct i; done.
  - simpl in H1, H2. destruct i as [|i].
    + simpl in H1. injection H1 as <-.
      destruct (lifetime_head ticks (updateParticlePosition Math_random r p s).1.2)
        as [tl Htl].
      rewrite Htl in H2. simpl in H2. injection H2 as <-. eauto.
    + simpl in H1. eapply IH; eauto.
Qed.

(** C6. Along the successive values of a particle, [hasReachedNucleus]
    goes from false to true at most once and never back, and on every tick
    other than that transition [vx] and [vy] are unchanged. *)
Theorem single_deflection ticks p :
  (transitions (lifetime Math_random ticks p) <= 1)%nat
  ∧ ∀ i p1 p2,
      lifetime Math_random ticks p !! i = Some p1 →
      lifetime Math_random ticks p !! S i = Some p2 →
      (hasReachedNucleus p1 = true → hasReachedNucleus p2 = true)
      ∧ (¬ (hasReachedNucleus p1 = false ∧ hasReachedNucleus p2 = true) →
         vx p2 = vx p1 ∧ vy p2 = vy p1).
Proof.
  split; [apply transitions_le_1|].
  intros i p1 p2 H1 H2.
  destruct (lifetime_successive ticks p i p1 p2 H1 H2) as (r & s & ->).
  destruct (updateParticlePosition_velocity r p1 s) as [Hkeep Hv].
  split; [done|]. intros Hno. apply Hv.
  destruct (hasReachedNucleus p1) eqn:E1.
  - by apply Hkeep.
  - destruct (hasReachedNucleus (updateParticlePosition Math_random r p1 s).1.2) eqn:E2;
      [|done].
    exfalso. by apply Hno.
Qed.

(** Every particle that [filter] keeps is the updated value of a particle
    of the store, so the lists above are the lives of the particles of the
    running simulation. *)
Lemma filterParticles_kept r ps s p' :
  p' ∈ (filterParticles Math_random r ps s).1 →
  ∃ p s0, p ∈ ps ∧ p' = (updateParticlePosition Math_random r p s0).1.2.
Proof.
  revert s. induction ps as [|p ps IH]; intros s; simpl.
  - by intros ?%elem_of_nil.
  - destruct (updateParticlePosition Math_random r p s) as [[keep q] s'] eqn:Hu.
    specialize (IH s').
    destruct (filterParticles Math_random r ps s') as [kept s''].
    simpl in *. intros Hin.
    assert (Hcases : p' = q ∨ p' ∈ kept).
    { destruct keep; [by apply elem_of_cons in Hin | by right]. }
    destruct Hcases as [-> | Hk].
    + exists p, s. split; [apply elem_of_cons; by left|]. by rewrite Hu.
    + destruct (IH Hk) as (p0 & s0 & Hp0 & ->).
      exists p0, s0. split; [apply elem_of_cons; by right | done].
Qed.

End Particle.

(** * Evaluating the physics step *)

(** The test of line 73 compares a square root with a bound. *)
Lemma sqrt_gt_false a c : 0 <= c -> c * c < a -> bool_decide (sqrt a <= c) = false.
Proof.
  intros Hc Ha. apply bool_decide_eq_false_2. intros Hle.
  assert (0 <= a) by nra.
  assert (Hs : sqrt a * sqrt a = a) by by apply sqrt_sqrt.
  pose proof (sqrt_pos a). nra.
Qed.

Lemma sqrt_le_true a c : 0 <= a -> a <= c * c -> 0 <= c -> bool_decide (sqrt a <= c) = true.
Proof.
  intros Ha Hle Hc. apply bool_decide_eq_true_2.
  apply Rle_trans with (sqrt (c * c)); [apply sqrt_le_1; nra | rewrite sqrt_square; lra].
Qed.

(** The histogram stays folded in the states below. *)
#[local] Opaque initialHistogram.

(** A particle that has not reached the nucleus and is farther than 15
    from the centre only moves. *)
Lemma updateParticlePosition_far rnd r p s :
  hasReachedNucleus p = false →
  15 * 15 < (x p - 300) ^ 2 + (y p - 200) ^ 2 →
  updateParticlePosition rnd r p s =
    (negb (bool_decide (x p + vx p < 0) || bool_decide (x p + vx p > WIDTH)
           || bool_decide (y p + vy p < 0) || bool_decide (y p + vy p > HEIGHT)),
     mkParticle (x p + vx p) (y p + vy p) (vx p) (vy p) (impactParameter p) false
       (if showPaths r && bool_decide (length (path p) < 100)%nat
        then path p ++ [(x p + vx p, y p + vy p)] else path p),
     s).
Proof.
  intros Hh Hfar. unfold updateParticlePosition. rewrite Hh.
  rewrite sqrt_gt_false; [simpl; by rewrite Hh | unfold NUCLEUS_RADIUS; lra |].
  unfold NUCLEUS_RADIUS, WIDTH, HEIGHT. lra.
Qed.

(** Start, a first frame that sets the time origin, and a second frame
    that creates the particle and moves it once. *)
Lemma cruise_spawn :
  run skimming mount [ToggleSimulation; Frame 1000; Frame 1016]
  = cruising 1 [(0, 200.01); (1.5, 200.01)] (Some 1000) 0.
Proof.
  unfold run, mount, cruising. simpl foldl.
  cbn [step hooks refs pendingFrame handleToggleSimulation running negb set_startTime
       counter nuclearCharge alphaEnergy showPaths showHistogram particlesRef histogramDataRef
       startTimeRef draws deflected dropped].
  unfold runningEffect. cbn [running]. cbn [pendingFrame].
  unfold animate, spawnPhase, spawns. cbn.
  unfold_constants. decide_numbers. cbn.
  unfold animate, spawnPhase, spawns. cbn.
  unfold_constants. decide_numbers. cbn.
  rewrite updateParticlePosition_far; [|done|cbn; lra].
  cbn. unfold_constants. decide_numbers. cbn.
  same_state.
Qed.

(** A pause, a start and a frame: the start clears the time origin, the
    frame sees no time elapsed and creates nothing, and the particle moves
    by 1.5 as long as it is farther than 15 from the centre. *)
Lemma cruise_step k path origin loop timestamp :
  (1 <= k <= 190)%nat → timestamp ≠ 0 →
  ∃ path',
    run skimming (cruising k path origin loop) (pauseResumeFrame timestamp)
    = cruising (S k) path' (Some timestamp) 1.
Proof.
  intros Hk Hts.
  assert (Hk1 : 1 <= INR k) by (apply (le_INR 1); lia).
  assert (Hk2 : INR k <= 190).
  { replace 190 with (INR 190) by (rewrite INR_IZR_INZ; reflexivity). apply le_INR. lia. }
  eexists (if bool_decide (length path < 100)%nat
           then path ++ [(1.5 * INR k + 1.5, 200.01 + 0)] else path).
  unfold run, cruising, pauseResumeFrame. rewrite S_INR. simpl foldl.
  cbn [step hooks refs pendingFrame handleToggleSimulation running negb set_startTime
       counter nuclearCharge alphaEnergy showPaths showHistogram particlesRef histogramDataRef
       startTimeRef draws deflected dropped].
  unfold runningEffect. cbn [running]. cbn [pendingFrame].
  unfold animate, spawnPhase, spawns. cbn.
  unfold_constants.
  rewrite (bool_decide_eq_false_2 (timestamp - timestamp > 1 * 100))
    by (cbn; lra).
  cbn.
  rewrite updateParticlePosition_far; [|done|cbn; nra].
  cbn. unfold_constants.
  rewrite (bool_decide_eq_false_2 (1.5 * INR k + 1.5 < 0)) by lra.
  rewrite (bool_decide_eq_false_2 (1.5 * INR k + 1.5 > 600)) by lra.
  rewrite (bool_decide_eq_false_2 (200.01 + 0 < 0)) by lra.
  rewrite (bool_decide_eq_false_2 (200.01 + 0 > 400)) by lra.
  cbn.
  same_state.
Qed.

Lemma run_app rnd a es1 es2 : run rnd a (es1 ++ es2) = run rnd (run rnd a es1) es2.
Proof. unfold run. apply foldl_app. Qed.

Lemma cruise_many timestamps :
  Forall (λ t, t ≠ 0) timestamps →
  ∀ k path origin loop,
    (1 <= k)%nat → (k + length timestamps <= 191)%nat →
    ∃ path' origin' loop',
      run skimming (cruising k path origin loop) (concat (pauseResumeFrame <$> timestamps))
      = cruising (k + length timestamps) path' origin' loop'.
Proof.
  induction 1 as [|t ts Ht _ IH]; intros k path origin loop Hk1 Hk2.
  - exists path, origin, loop. simpl. by rewrite Nat.add_0_r.
  - simpl in Hk2. rewrite fmap_cons, concat_cons, run_app.
    destruct (cruise_step k path origin loop t) as [path1 ->]; [lia|done|].
    destruct (IH (S k) path1 (Some t) 1%nat) as (path' & origin' & loop' & ->); [lia|lia|].
    exists path', origin', loop'. simpl. f_equal. lia.
Qed.

(** The angle of the particle 0.01 above the axis, with the factor 1.08. *)
Lemma wide_angle :
  180 <= 2 * atan (tanHalfTheta 79 5 0.01) * (0.9 + 0.9 * 0.2) * (180 / PI) < 200.
Proof.
  assert (Habs : Rabs 0.01 = 0.01) by (apply Rabs_pos_eq; lra).
  assert (Ht : tanHalfTheta 79 5 0.01 = 11.376).
  { rewrite tanHalfTheta_closed by lra. rewrite Habs. lra. }
  rewrite Ht.
  pose proof (atan_upper_gap 11.376 ltac:(lra)) as Hgap.
  destruct (atan_bound 11.376) as [_ Hub].
  pose proof PI_lower as Hpl. pose proof PI_upper as Hpu.
  assert (Hinv : / 11.376 < 0.088).
  { apply Rmult_lt_reg_r with 11.376; [lra|]. rewrite Rinv_l by lra. lra. }
  set (A := atan 11.376) in *.
  assert (HB : 180 / PI * PI = 180) by (field; lra).
  assert (HB0 : 0 < 180 / PI) by (apply Rdiv_lt_0_compat; lra).
  set (B := 180 / PI) in *.
  assert (HB1 : B < 58) by nra.
  assert (H1 : 0 <= (A - (PI / 2 - 0.088)) * B) by (apply Rmult_le_pos; lra).
  assert (H2 : 0 <= (PI / 2 - A) * B) by (apply Rmult_le_pos; lra).
  split; nra.
Qed.

Lemma binKeyOf_wide angle : 180 <= angle → initialHistogram !! binKeyOf angle = None.
Proof.
  intros Ha. rewrite initialHistogram_lookup.
  destruct (decide (binKeyOf angle ∈ binKeys)) as [Hin%binKeys_range|]; [|done].
  exfalso. unfold binKeyOf in Hin.
  assert (18 <= Zfloor (Rabs angle / 10))%Z; [|lia].
  apply Zfloor_lub. rewrite Rabs_pos_eq by lra. lra.
Qed.

(** Within 15 of the centre the scattering branch runs. *)
Lemma updateParticlePosition_near rnd r p s :
  hasReachedNucleus p = false →
  (x p - 300) ^ 2 + (y p - 200) ^ 2 <= 15 * 15 →
  let angle := (calculateTrajectory rnd r p (draws s)).1 in
  histogramDataRef (updateParticlePosition rnd r p s).2
    = recordAngle (histogramDataRef s) angle
  ∧ deflected (updateParticlePosition rnd r p s).2 = S (deflected s).
Proof.
  intros Hh Hnear. unfold updateParticlePosition. rewrite Hh.
  rewrite sqrt_le_true; unfold NUCLEUS_RADIUS, WIDTH, HEIGHT;
    [|apply Rplus_le_le_0_compat; apply pow2_ge_0|lra|lra].
  simpl. destruct (calculateTrajectory rnd r p (draws s)) as [angle n]. done.
Qed.

(** At 286.5 the particle is deflected, and its angle is recorded in no
    bin. *)
Lemma cruise_deflect path origin loop timestamp :
  timestamp ≠ 0 →
  let a := run skimming (cruising 191 path origin loop) (pauseResumeFrame timestamp) in
  histogramDataRef (refs a) = initialHistogram ∧ deflected (refs a) = 1%nat.
Proof.
  intros Hts.
  unfold run, cruising, pauseResumeFrame. rewrite INR_IZR_INZ.
  change (Z.of_nat 191) with 191%Z. simpl foldl.
  cbn [step hooks refs pendingFrame handleToggleSimulation running negb set_startTime
       counter nuclearCharge alphaEnergy showPaths showHistogram particlesRef histogramDataRef
       startTimeRef draws deflected dropped].
  unfold runningEffect. cbn [running]. cbn [pendingFrame].
  unfold animate, spawnPhase, spawns. cbn.
  unfold_constants.
  rewrite (bool_decide_eq_false_2 (timestamp - timestamp > 1 * 100))
    by (cbn; lra).
  cbn.
  match goal with |- context [updateParticlePosition ?f ?r ?p ?s] =>
    destruct (updateParticlePosition_near f r p s) as [Hh Hd];
      [done | cbn; lra |];
    destruct (updateParticlePosition f r p s) as [[keep p'] s']
  end.
  cbn in Hh, Hd. cbn.
  rewrite Hh, Hd. split; [|done].
  unfold recordAngle. rewrite binKeyOf_wide; [done|].
  rewrite calculateTrajectory_nonzero by (cbn; lra). cbn.
  rewrite decide_False by lra.
  apply wide_angle.
Qed.

Lemma reachable_run rnd a es :
  reachable rnd a → Forall admissible es → reachable rnd (run rnd a es).
Proof.
  intros Ha Hes. revert a Ha. induction Hes as [|e es He _ IH]; intros a Ha; [done|].
  apply IH. by constructor.
Qed.

Lemma wideAngleEvents_admissible : Forall admissible wideAngleEvents.
Proof.
  unfold wideAngleEvents. rewrite !Forall_app. split_and!.
  - repeat constructor; simpl; lra.
  - apply Forall_concat, Forall_fmap, Forall_fmap, Forall_forall.
    intros i _. simpl. pose proof (pos_INR i). repeat constructor; simpl; lra.
  - repeat constructor; simpl; lra.
Qed.

(** The guard of line 244 is evaluated on the values of the render that
    [animate] belongs to; a true guard appends one particle and calls
    [setCounter] once, a false one does neither. *)
Lemma spawnPhase_guard rnd r timestamp s :
  let origin := if falsy (startTimeRef s) then timestamp else default 0 (startTimeRef s) in
  let '(s', spawned) := spawnPhase rnd r timestamp s in
  (spawned = true ↔
     timestamp - origin > INR (counter r) * EMISSION_INTERVAL
     ∧ (length (particlesRef s) < MAX_PARTICLES)%nat
     ∧ running r = true)
  ∧ particlesRef s' =
      (if spawned then particlesRef s ++ [(createParticle rnd (draws s)).1]
       else particlesRef s).
Proof.
  unfold spawnPhase, spawns.
  destruct (falsy (startTimeRef s)); simpl.
  - destruct (bool_decide (timestamp - timestamp > _)) eqn:H1;
      destruct (bool_decide (length (particlesRef s) < MAX_PARTICLES)%nat) eqn:H2;
      destruct (running r) eqn:H3; simpl; (split; [|done]);
      try apply bool_decide_eq_true_1 in H1; try apply bool_decide_eq_false_1 in H1;
      try apply bool_decide_eq_true_1 in H2; try apply bool_decide_eq_false_1 in H2;
      split; try done; intros (? & ? & ?); done.
  - destruct (bool_decide (timestamp - default 0 (startTimeRef s) > _)) eqn:H1;
      destruct (bool_decide (length (particlesRef s) < MAX_PARTICLES)%nat) eqn:H2;
      destruct (running r) eqn:H3; simpl; (split; [|done]);
      try apply bool_decide_eq_true_1 in H1; try apply bool_decide_eq_false_1 in H1;
      try apply bool_decide_eq_true_1 in H2; try apply bool_decide_eq_false_1 in H2;
      split; try done; intros (? & ? & ?); done.
Qed.

(** C3, as stated, fails: after the run [wideAngleEvents] one particle has
    been deflected, by more than 180 degrees, and every bin is still
    zero. *)
Lemma histogram_total_misses_wide_angle :
  let a := run skimming mount wideAngleEvents in
  reachable skimming a
  ∧ deflected (refs a) = 1%nat
  ∧ histogramTotal (histogramDataRef (refs a)) = 0%nat
  ∧ histogramTotal (histogramDataRef (refs a)) ≠ deflected (refs a).
Proof.
  intros a.
  assert (Hr : reachable skimming a).
  { apply reachable_run; [constructor | apply wideAngleEvents_admissible]. }
  assert (Hfinal : histogramDataRef (refs a) = initialHistogram
                   ∧ deflected (refs a) = 1%nat).
  { unfold a, wideAngleEvents. rewrite !run_app. rewrite cruise_spawn.
    pose proof (cruise_many ((λ i : nat, 1016 + 16 * INR i) <$> seq 1 190)) as Hm.
    destruct Hm with (k := 1%nat) (path := [(0, 200.01); (1.5, 200.01)]) (origin := Some 1000) (loop := 0%nat)
      as (path & origin & loop & Hrun).
    - apply Forall_fmap, Forall_forall. intros i _. simpl.
      pose proof (pos_INR i). lra.
    - lia.
    - rewrite length_fmap, length_seq. lia.
    - rewrite Hrun.
      rewrite length_fmap, length_seq. apply cruise_deflect. lra. }
  destruct Hfinal as [Hh Hd]. rewrite Hh, Hd, initialHistogram_total.
  split_and!; [done|done|done|lia].
Qed.

(** C7. The code breaks the claim: the frame loop reads the counter of the
    render that started it.  After Start and the frames at 1000 and 1016
    one particle has been emitted and the counter is 1; at the frame at
    1032 the elapsed time is 32, not above 1·100, and a second particle is
    created all the same, because the registered [animate] still holds the
    counter 0. *)
Theorem spawner_reads_stale_counter :
  let a := run skimming mount [ToggleSimulation; Frame 1000; Frame 1016] in
  let a' := step skimming a (Frame 1032) in
  running (hooks a) = true
  ∧ counter (hooks a) = 1%nat
  ∧ startTimeRef (refs a) = Some 1000
  ∧ length (particlesRef (refs a)) = 1%nat
  ∧ pendingFrame a = Some (mkRender true 0 79 5 true true)
  ∧ ¬ (1032 - 1000 > INR (counter (hooks a)) * EMISSION_INTERVAL)
  ∧ length (particlesRef (refs a')) = 2%nat
  ∧ counter (hooks a') = 2%nat.
Proof.
  intros a a'. unfold a', a. rewrite cruise_spawn. unfold cruising.
  cbn [step hooks refs pendingFrame running counter startTimeRef particlesRef length].
  split_and!; try done.
  - unfold EMISSION_INTERVAL. simpl. lra.
  - unfold animate, spawnPhase, spawns. cbn.
    unfold_constants. decide_numbers. cbn.
    rewrite updateParticlePosition_far; [|done|cbn; lra].
    rewrite updateParticlePosition_far; [|done|cbn; lra].
    cbn. unfold_constants. decide_numbers. done.
  - unfold animate, spawnPhase, spawns. cbn.
    unfold_constants. decide_numbers. cbn.
    rewrite updateParticlePosition_far; [|done|cbn; lra].
    rewrite updateParticlePosition_far; [|done|cbn; lra].
    cbn. unfold_constants. decide_numbers. done.
Qed.

Lemma histogram_keys_witness :
  dom (histogramDataRef (refs mount)) =
    list_to_set (C := gset Z)
      [0; 10; 20; 30; 40; 50; 60; 70; 80; 90; 100; 110; 120; 130; 140; 150; 160; 170]%Z.
Proof. apply (histogram_keys skimming mount). constructor. Defined.

Lemma histogram_total_counts_recorded_witness :
  let a := run skimming mount wideAngleEvents in
  (histogramTotal (histogramDataRef (refs a)) + dropped (refs a) = deflected (refs a))%nat
  ∧ (histogramTotal (histogramDataRef (refs a)) <= deflected (refs a))%nat.
Proof.
  apply (histogram_total_counts_recorded skimming (run skimming mount wideAngleEvents)).
  apply reachable_run; [constructor | apply wideAngleEvents_admissible].
Defined.

Lemma reset_clears_witness :
  let a' := step skimming mount Reset in
  running (hooks a') = false
  ∧ pendingFrame a' = None
  ∧ particlesRef (refs a') = []
  ∧ dom (histogramDataRef (refs a')) = list_to_set (C := gset Z) binKeys
  ∧ (∀ k, k ∈ binKeys → histogramDataRef (refs a') !! k = Some 0%nat)
  ∧ counter (hooks a') = 0%nat
  ∧ startTimeRef (refs a') = None.
Proof. apply (reset_clears skimming mount). constructor. Defined.

Lemma single_deflection_witness :
  let p := mkParticle 0 200.01 1.5 0 0.01 false [(0, 200.01)] in
  let r := mkRender true 0 79 5 true true in
  let s := mkRefs [p] initialHistogram (Some 1000) 1 0 0 in
  let p' := (updateParticlePosition skimming r p s).1.2 in
  (transitions (lifetime skimming [(r, s)] p) <= 1)%nat
  ∧ vx p' = vx p ∧ vy p' = vy p.
Proof.
  intros p r s p'.
  destruct (single_deflection skimming [(r, s)] p) as [Hle Hticks].
  split; [exact Hle|].
  apply (Hticks 0%nat p p'); [reflexivity | reflexivity |].
  intros [_ Hflip]. unfold p' in Hflip.
  rewrite updateParticlePosition_far in Hflip; [done | done | simpl; lra].
Defined.

(** * Further properties of the deflection angle *)

Section Angle.

Variable Math_random : nat → R.

(** X1. With the energy, the impact parameter and the random draw fixed, a
    higher nuclear charge gives a strictly larger deflection. *)
Theorem deflection_grows_with_charge r1 r2 p n :
  impactParameter p ≠ 0 →
  0 < alphaEnergy r1 → alphaEnergy r2 = alphaEnergy r1 →
  0 < nuclearCharge r1 < nuclearCharge r2 →
  0 <= Math_random n →
  Rabs (calculateTrajectory Math_random r1 p n).1
  < Rabs (calculateTrajectory Math_random r2 p n).1.
Proof.
  intros Hb HE HE2 HZ Hu.
  rewrite !calculateTrajectory_abs by (rewrite ?HE2; done || lra).
  rewrite HE2.
  pose proof PI_RGT_0 as Hpi.
  assert (0 < 180 / PI) by (apply Rdiv_lt_0_compat; lra).
  assert (Hlt : tanHalfTheta (nuclearCharge r1) (alphaEnergy r1) (impactParameter p)
                < tanHalfTheta (nuclearCharge r2) (alphaEnergy r1) (impactParameter p)).
  { rewrite !tanHalfTheta_closed by lra.
    assert (0 < Rabs (impactParameter p)) by by apply Rabs_pos_lt.
    apply Rmult_lt_compat_r; [apply Rinv_0_lt_compat; lra | nra]. }
  apply atan_increasing in Hlt.
  apply Rmult_lt_compat_r; [done|].
  apply Rmult_lt_compat_r; lra.
Qed.

(** X2. With the charge, the energy and the random draw fixed, a particle
    farther from the axis is deflected strictly less. *)
Theorem deflection_shrinks_with_impact r p1 p2 n :
  0 < nuclearCharge r → 0 < alphaEnergy r →
  0 < Rabs (impactParameter p1) < Rabs (impactParameter p2) →
  0 <= Math_random n →
  Rabs (calculateTrajectory Math_random r p2 n).1
  < Rabs (calculateTrajectory Math_random r p1 n).1.
Proof.
  intros HZ HE Hb Hu.
  assert (Hb1 : impactParameter p1 ≠ 0).
  { intros H0. rewrite H0, Rabs_R0 in Hb. lra. }
  assert (Hb2 : impactParameter p2 ≠ 0).
  { intros H0. rewrite H0, Rabs_R0 in Hb. lra. }
  rewrite !calculateTrajectory_abs by done.
  pose proof PI_RGT_0 as Hpi.
  assert (0 < 180 / PI) by (apply Rdiv_lt_0_compat; lra).
  assert (Hlt : tanHalfTheta (nuclearCharge r) (alphaEnergy r) (impactParameter p2)
                < tanHalfTheta (nuclearCharge r) (alphaEnergy r) (impactParameter p1)).
  { rewrite !tanHalfTheta_closed by lra.
    apply Rmult_lt_compat_l; [nra|].
    apply Rinv_lt_contravar; nra. }
  apply atan_increasing in Hlt.
  apply Rmult_lt_compat_r; [done|].
  apply Rmult_lt_compat_r; lra.
Qed.

(** X3. Whatever the parameters are, the returned angle stays below 198
    degrees in magnitude, so its bin key is one of 0, 10, ..., 190: the
    only keys the histogram can miss are 180 and 190. *)
Theorem calculateTrajectory_bounded r p n :
  0 <= Math_random n < 1 →
  let angle := (calculateTrajectory Math_random r p n).1 in
  Rabs angle < 198
  ∧ ∃ i : Z, (0 <= i <= 19)%Z ∧ binKeyOf angle = (i * 10)%Z.
Proof.
  intros Hu angle.
  assert (Hbound : Rabs angle < 198).
  { unfold angle. destruct (decide (impactParameter p = 0)) as [H0|Hne].
    - unfold calculateTrajectory. rewrite H0.
      rewrite decide_True by done. rewrite decide_False by lra. simpl.
      rewrite Rmult_0_l, Rabs_R0. lra.
    - rewrite calculateTrajectory_nonzero by done. simpl.
      set (t := tanHalfTheta _ _ _).
      destruct (atan_bound t) as [Hl Hh].
      pose proof PI_RGT_0 as Hpi.
      assert (HB : 180 / PI * PI = 180) by (field; lra).
      assert (HB0 : 0 < 180 / PI) by (apply Rdiv_lt_0_compat; lra).
      set (B := 180 / PI) in *.
      set (f := 0.9 + Math_random n * 0.2).
      assert (Hf : 0 < f < 1.1) by (unfold f; lra).
      assert (Habs : Rabs (2 * atan t * f * B) < 198).
      { apply Rabs_def1.
        - assert (0 < (PI / 2 - atan t) * B) by (apply Rmult_lt_0_compat; lra).
          assert (2 * atan t * B < 180) by nra.
          destruct (Rle_lt_dec 0 (2 * atan t * B)) as [Hp|Hn]; nra.
        - assert (0 < (atan t + PI / 2) * B) by (apply Rmult_lt_0_compat; lra).
          assert (-180 < 2 * atan t * B) by nra.
          destruct (Rle_lt_dec 0 (2 * atan t * B)) as [Hp|Hn]; nra. }
      destruct (decide (impactParameter p < 0)); [by rewrite Rabs_Ropp | done]. }
  split; [done|].
  exists (Zfloor (Rabs angle / 10)). split; [|done].
  pose proof (Zfloor_bound (Rabs angle / 10)) as [Hlo Hhi].
  pose proof (Rabs_pos angle).
  split.
  - apply (Zfloor_lub 0). simpl. lra.
  - assert (Zfloor (Rabs angle / 10) < 20)%Z; [|lia].
    apply lt_IZR. lra.
Qed.

(** X4. For a positive charge and energy the angle has the sign of the
    impact parameter: the side of the deflection is the side on which the
    particle passes. *)
Theorem calculateTrajectory_sign r p n :
  0 < nuclearCharge r → 0 < alphaEnergy r → 0 <= Math_random n →
  (0 < impactParameter p → 0 < (calculateTrajectory Math_random r p n).1)
  ∧ (impactParameter p < 0 → (calculateTrajectory Math_random r p n).1 < 0).
Proof.
  intros HZ HE Hu.
  assert (Hpos : impactParameter p ≠ 0 →
    0 < 2 * atan (tanHalfTheta (nuclearCharge r) (alphaEnergy r) (impactParameter p))
        * (0.9 + Math_random n * 0.2) * (180 / PI)).
  { intros Hb. pose proof (atan_pos _ (tanHalfTheta_pos _ _ _ HZ HE Hb)) as Ha.
    pose proof PI_RGT_0 as Hpi.
    assert (0 < 180 / PI) by (apply Rdiv_lt_0_compat; lra).
    apply Rmult_lt_0_compat; [apply Rmult_lt_0_compat|]; lra. }
  split; intros Hb.
  - rewrite calculateTrajectory_nonzero by lra. simpl.
    rewrite decide_False by lra. apply Hpos. lra.
  - rewrite calculateTrajectory_nonzero by lra. simpl.
    rewrite decide_True by lra. specialize (Hpos ltac:(lra)). lra.
Qed.

End Angle.

(** * Further properties of one particle *)

Section Flight.

Variable Math_random : nat → R.

(** The branch of lines 72-95 runs exactly on a particle that has not
    reached the nucleus and passes the distance test. *)
Lemma updateParticlePosition_unreached r p s :
  hasReachedNucleus (updateParticlePosition Math_random r p s).1.2 = false →
  hasReachedNucleus p = false
  ∧ ¬ sqrt ((x p - WIDTH / 2) ^ 2 + (y p - HEIGHT / 2) ^ 2) <= NUCLEUS_RADIUS * 3
  ∧ (updateParticlePosition Math_random r p s).1.2 =
      mkParticle (x p + vx p) (y p + vy p) (vx p) (vy p) (impactParameter p) false
        (if showPaths r && bool_decide (length (path p) < 100)%nat
         then path p ++ [(x p + vx p, y p + vy p)] else path p)
  ∧ (updateParticlePosition Math_random r p s).1.1 =
      negb (bool_decide (x p + vx p < 0) || bool_decide (x p + vx p > WIDTH)
            || bool_decide (y p + vy p < 0) || bool_decide (y p + vy p > HEIGHT)).
Proof.
  unfold updateParticlePosition.
  destruct (hasReachedNucleus p) eqn:Hh; simpl.
  - rewrite Hh. done.
  - case_bool_decide as Hnear; simpl.
    + destruct (calculateTrajectory Math_random r p (draws s)) as [angle n]. done.
    + rewrite Hh. done.
Qed.

Lemma updateParticlePosition_reaches r p s :
  hasReachedNucleus p = false →
  sqrt ((x p - WIDTH / 2) ^ 2 + (y p - HEIGHT / 2) ^ 2) <= NUCLEUS_RADIUS * 3 →
  hasReachedNucleus (updateParticlePosition Math_random r p s).1.2 = true.
Proof.
  intros Hh Hnear. unfold updateParticlePosition. rewrite Hh. simpl.
  rewrite bool_decide_eq_true_2 by done.
  destruct (calculateTrajectory Math_random r p (draws s)) as [angle n]. done.
Qed.

Lemma lifetime_step r s ticks p i :
  lifetime Math_random ((r, s) :: ticks) p !! S i
  = lifetime Math_random ticks (updateParticlePosition Math_random r p s).1.2 !! i.
Proof. reflexivity. Qed.

Lemma lifetime_length ticks p : length (lifetime Math_random ticks p) = S (length ticks).
Proof.
  revert p. induction ticks as [|[r s] ticks IH]; intros p; [done|].
  simpl. by rewrite IH.
Qed.

Lemma lifetime_reached_stays ticks p i q :
  hasReachedNucleus p = true →
  lifetime Math_random ticks p !! i = Some q → hasReachedNucleus q = true.
Proof.
  revert p i. induction ticks as [|[r s] ticks IH]; intros p i Hp Hq.
  - destruct i; simpl in Hq; [by injection Hq as <- | done].
  - destruct i as [|i]; [simpl in Hq; by injection Hq as <-|].
    rewrite lifetime_step in Hq. eapply IH; [|done].
    by apply updateParticlePosition_velocity.
Qed.

Lemma straight_line ticks p i q :
  lifetime Math_random ticks p !! i = Some q →
  hasReachedNucleus q = false →
  x q = x p + INR i * vx p ∧ y q = y p + INR i * vy p
  ∧ vx q = vx p ∧ vy q = vy p ∧ impactParameter q = impactParameter p.
Proof.
  revert p i. induction ticks as [|[r s] ticks IH]; intros p i Hq Hun.
  - destruct i; simpl in Hq; [|done]. injection Hq as <-. simpl. split_and!; lra.
  - destruct i as [|i].
    + simpl in Hq. injection Hq as <-. simpl. split_and!; lra.
    + rewrite lifetime_step in Hq.
      destruct (IH _ _ Hq Hun) as (Hx & Hy & Hvx & Hvy & Hb).
      set (p' := (updateParticlePosition Math_random r p s).1.2) in *.
      assert (Hp' : hasReachedNucleus p' = false).
      { destruct (hasReachedNucleus p') eqn:E; [|done].
        pose proof (lifetime_reached_stays _ _ _ _ E Hq). congruence. }
      destruct (updateParticlePosition_unreached r p s Hp') as (_ & _ & Heq & _).
      fold p' in Heq. rewrite Heq in Hx, Hy, Hvx, Hvy, Hb. rewrite S_INR.
      simpl in Hx, Hy, Hvx, Hvy, Hb. split_and!; lra.
Qed.

(** X5. Until it reaches the nucleus a particle flies in a straight line
    with its first velocity: after i ticks it is i steps from where it
    started. *)
Theorem free_flight ticks p i q :
  lifetime Math_random ticks p !! i = Some q →
  hasReachedNucleus q = false →
  x q = x p + INR i * vx p ∧ y q = y p + INR i * vy p
  ∧ vx q = vx p ∧ vy q = vy p ∧ impactParameter q = impactParameter p.
Proof. apply straight_line. Qed.

End Flight.

Lemma free_flight_witness :
  let p := mkParticle 0 240 1.5 0 40 false [(0, 240)] in
  let r := mkRender true 0 79 5 true true in
  let s := mkRefs [p] initialHistogram (Some 1000) 1 0 0 in
  let q := (updateParticlePosition skimming r p s).1.2 in
  x q = x p + INR 1 * vx p ∧ y q = y p + INR 1 * vy p
  ∧ vx q = vx p ∧ vy q = vy p ∧ impactParameter q = impactParameter p.
Proof.
  intros p r s q.
  apply (free_flight skimming [(r, s)] p 1%nat q); [reflexivity|].
  unfold q. rewrite updateParticlePosition_far; [done | done | simpl; lra].
Defined.

(** * Which particles are scattered *)

Section Scattering.

Variable Math_random : nat → R.

Lemma Rabs_gt_sqr a c : 0 <= c → c < Rabs a → c * c < a ^ 2.
Proof.
  intros Hc Ha. unfold Rabs in Ha. destruct (Rcase_abs a); nra.
Qed.

Lemma Rabs_le_sqr a c : Rabs a <= c → a ^ 2 <= c * c.
Proof.
  intros Ha. pose proof (Rabs_pos a). unfold Rabs in *. destruct (Rcase_abs a); nra.
Qed.

Lemma sqrt_le_bound a c : 0 <= a → a <= c * c → 0 <= c → sqrt a <= c.
Proof.
  intros Ha Hle Hc.
  apply Rle_trans with (sqrt (c * c)); [apply sqrt_le_1; nra | rewrite sqrt_square; lra].
Qed.

(** A particle that flies parallel to the axis, farther than 15 from it,
    never reaches the nucleus. *)
Lemma passes_by ticks p i q :
  hasReachedNucleus p = false → vy p = 0 → 15 < Rabs (y p - 200) →
  lifetime Math_random ticks p !! i = Some q → hasReachedNucleus q = false.
Proof.
  revert p i. induction ticks as [|[r s] ticks IH]; intros p i Hh Hvy Hy Hq.
  - destruct i; simpl in Hq; [by injection Hq as <- | done].
  - destruct i as [|i]; [simpl in Hq; by injection Hq as <-|].
    rewrite lifetime_step in Hq. revert Hq.
    rewrite updateParticlePosition_far; [|done|].
    + simpl. apply IH; simpl; [done | done | by rewrite Hvy, Rplus_0_r].
    + pose proof (Rabs_gt_sqr (y p - 200) 15 ltac:(lra) Hy).
      pose proof (pow2_ge_0 (x p - 300)). lra.
Qed.

(** X6. A particle made by [createParticle] is scattered exactly when it
    starts within 15 of the axis: farther out it never reaches the
    nucleus, and otherwise it has reached it after 201 ticks at the
    latest. *)
Theorem scattered_iff_close n :
  let p := (createParticle Math_random n).1 in
  (15 < Rabs (impactParameter p) →
     ∀ ticks i q, lifetime Math_random ticks p !! i = Some q →
                  hasReachedNucleus q = false)
  ∧ (Rabs (impactParameter p) <= 15 →
     ∀ ticks, (201 <= length ticks)%nat →
       ∃ q, lifetime Math_random ticks p !! 201%nat = Some q
            ∧ hasReachedNucleus q = true).
Proof.
  intros p. split.
  - intros Hb ticks i q Hq. eapply (passes_by ticks p); [done|done| |done].
    unfold p in *. simpl in *. unfold HEIGHT in *.
    replace (400 / 2 + (Math_random n - 0.5) * (400 / 2) - 200)
      with (400 / 2 + (Math_random n - 0.5) * (400 / 2) - 400 / 2) by lra. done.
  - intros Hb ticks Hlen.
    pose proof (lifetime_length Math_random ticks p) as Hl.
    destruct (lookup_lt_is_Some_2 (lifetime Math_random ticks p) 200) as [q0 Hq0]; [lia|].
    destruct (lookup_lt_is_Some_2 (lifetime Math_random ticks p) 201) as [q1 Hq1]; [lia|].
    exists q1. split; [done|].
    destruct (lifetime_successive Math_random ticks p 200 q0 q1 Hq0 Hq1) as (r & s & ->).
    destruct (hasReachedNucleus q0) eqn:Hh0.
    + by apply updateParticlePosition_velocity.
    + destruct (straight_line Math_random ticks p 200 q0 Hq0 Hh0) as (Hx & Hy & _).
      apply updateParticlePosition_reaches; [done|].
      rewrite INR_IZR_INZ in Hx, Hy. change (Z.of_nat 200) with 200%Z in Hx, Hy.
      unfold p in Hx, Hy, Hb. simpl in Hx, Hy, Hb.
      unfold WIDTH, HEIGHT, NUCLEUS_RADIUS in *.
      apply sqrt_le_bound; [| |lra].
      * apply Rplus_le_le_0_compat; apply pow2_ge_0.
      * apply Rabs_le_sqr in Hb. rewrite Hx, Hy.
        replace (0 + 200 * 1.5 - 600 / 2) with 0 by lra.
        replace (400 / 2 + (Math_random n - 0.5) * (400 / 2) + 200 * 0 - 400 / 2)
          with (400 / 2 + (Math_random n - 0.5) * (400 / 2) - 400 / 2) by lra.
        nra.
Qed.

(** X7. A particle made by [createParticle] farther than 15 from the axis
    crosses the canvas unscattered: the call of [updateParticlePosition]
    on its value after i ticks keeps it exactly when i < 400, so it leaves
    the store at its 401st tick. *)
Theorem unscattered_crossing n ticks i q r s :
  0 <= Math_random n < 1 →
  let p := (createParticle Math_random n).1 in
  15 < Rabs (impactParameter p) →
  lifetime Math_random ticks p !! i = Some q →
  (updateParticlePosition Math_random r q s).1.1 = bool_decide (i < 400)%nat.
Proof.
  intros Hu p Hb Hq.
  assert (Hh : hasReachedNucleus q = false).
  { eapply (passes_by ticks p); [done|done| |done].
    unfold p in *. simpl in *. unfold HEIGHT in *.
    replace (400 / 2 + (Math_random n - 0.5) * (400 / 2) - 200)
      with (400 / 2 + (Math_random n - 0.5) * (400 / 2) - 400 / 2) by lra. done. }
  destruct (straight_line Math_random ticks p i q Hq Hh) as (Hx & Hy & Hvx & Hvy & _).
  unfold p in Hx, Hy, Hvx, Hvy, Hb. simpl in Hx, Hy, Hvx, Hvy, Hb. unfold HEIGHT in *.
  assert (Hby : 15 < Rabs (y q - 200)).
  { rewrite Hy.
    replace (400 / 2 + (Math_random n - 0.5) * (400 / 2) + INR i * 0 - 200)
      with (400 / 2 + (Math_random n - 0.5) * (400 / 2) - 400 / 2) by lra. done. }
  rewrite updateParticlePosition_far; [|done|].
  2:{ pose proof (Rabs_gt_sqr (y q - 200) 15 ltac:(lra) Hby).
      pose proof (pow2_ge_0 (x q - 300)). lra. }
  simpl. rewrite Hx, Hy, Hvx, Hvy. unfold WIDTH, HEIGHT.
  pose proof (pos_INR i) as Hi.
  rewrite (bool_decide_eq_false_2 (0 + INR i * 1.5 + 1.5 < 0)) by lra.
  rewrite (bool_decide_eq_false_2 (_ + _ + 0 < 0)) by lra.
  rewrite (bool_decide_eq_false_2 (_ + _ + 0 > 400)) by lra.
  simpl. rewrite orb_false_r.
  destruct (decide (i < 400)%nat) as [Hlt|Hge].
  - rewrite (bool_decide_eq_true_2 (i < 400)%nat) by done.
    rewrite bool_decide_eq_false_2; [done|].
    assert (INR i <= 399).
    { replace 399 with (INR 399) by (rewrite INR_IZR_INZ; reflexivity).
      apply le_INR. lia. }
    lra.
  - rewrite (bool_decide_eq_false_2 (i < 400)%nat) by done.
    rewrite bool_decide_eq_true_2; [done|].
    assert (400 <= INR i).
    { replace 400 with (INR 400) by (rewrite INR_IZR_INZ; reflexivity).
      apply le_INR. lia. }
    lra.
Qed.

(** X8. The scattering branch turns the velocity and keeps the speed: less
    the two random pushes, each of at most 0.1, the new velocity has the
    length of the old one. *)
Theorem deflection_keeps_speed r p s :
  (∀ n, 0 <= Math_random n < 1) →
  hasReachedNucleus p = false →
  sqrt ((x p - WIDTH / 2) ^ 2 + (y p - HEIGHT / 2) ^ 2) <= NUCLEUS_RADIUS * 3 →
  let p' := (updateParticlePosition Math_random r p s).1.2 in
  ∃ dx dy, Rabs dx <= 0.1 ∧ Rabs dy <= 0.1
    ∧ (vx p' - dx) ^ 2 + (vy p' - dy) ^ 2 = vx p ^ 2 + vy p ^ 2.
Proof.
  intros Hrand Hh Hnear p'. unfold p', updateParticlePosition.
  rewrite Hh. simpl. rewrite bool_decide_eq_true_2 by done.
  destruct (calculateTrajectory Math_random r p (draws s)) as [angle n]. simpl.
  exists ((Math_random n - 0.5) * 0.2), ((Math_random (S n) - 0.5) * 0.2).
  pose proof (Hrand n). pose proof (Hrand (S n)).
  split; [apply Rabs_le; lra|]. split; [apply Rabs_le; lra|].
  set (speed := sqrt (vx p * vx p + vy p * vy p)).
  assert (Hs : speed * speed = vx p * vx p + vy p * vy p).
  { apply sqrt_sqrt. nra. }
  pose proof (sin2_cos2 (angle * (PI / 180))) as Hsc. unfold Rsqr in Hsc.
  set (c := cos _) in *. set (sn := sin _) in *.
  transitivity (speed * speed * (sn * sn + c * c)); [ring|].
  rewrite Hsc, Hs. ring.
Qed.


End Scattering.

(** * Invariants of the running component *)

Section Component.

Variable Math_random : nat → R.

Lemma filterParticles_length r ps s :
  (length (filterParticles Math_random r ps s).1 <= length ps)%nat.
Proof.
  revert s. induction ps as [|p ps IH]; intros s; simpl; [done|].
  destruct (updateParticlePosition Math_random r p s) as [[keep p'] s'].
  specialize (IH s').
  destruct (filterParticles Math_random r ps s') as [kept s''].
  destruct keep; simpl in *; lia.
Qed.

(** A particle that [updateParticlePosition] keeps lies on the canvas, and
    its path has grown by at most one point and not beyond 100. *)
Lemma updateParticlePosition_stored r p s :
  (1 <= length (path p) <= 100)%nat →
  (updateParticlePosition Math_random r p s).1.1 = true →
  stored (updateParticlePosition Math_random r p s).1.2.
Proof.
  intros Hpath. unfold updateParticlePosition.
  destruct (negb (hasReachedNucleus p) && bool_decide _).
  - destruct (calculateTrajectory Math_random r p (draws s)) as [angle n]. simpl.
    intros Hkeep. apply negb_true_iff in Hkeep.
    rewrite !orb_false_iff in Hkeep. destruct Hkeep as [[[H1 H2] H3] H4].
    apply bool_decide_eq_false_1 in H1, H2, H3, H4.
    unfold stored. simpl. split; [lra|].
    destruct (showPaths r); simpl; [|done].
    case_bool_decide; [rewrite length_app; simpl; lia | done].
  - simpl. intros Hkeep. apply negb_true_iff in Hkeep.
    rewrite !orb_false_iff in Hkeep. destruct Hkeep as [[[H1 H2] H3] H4].
    apply bool_decide_eq_false_1 in H1, H2, H3, H4.
    unfold stored. simpl. split; [lra|].
    destruct (showPaths r); simpl; [|done].
    case_bool_decide; [rewrite length_app; simpl; lia | done].
Qed.

Lemma filterParticles_stored r ps s :
  Forall (λ p, (1 <= length (path p) <= 100)%nat) ps →
  Forall stored (filterParticles Math_random r ps s).1.
Proof.
  revert s. induction ps as [|p ps IH]; intros s Hps; simpl; [done|].
  apply Forall_cons in Hps as [Hp Hps].
  pose proof (updateParticlePosition_stored r p s Hp) as Hst.
  destruct (updateParticlePosition Math_random r p s) as [[keep p'] s'].
  specialize (IH s' Hps).
  destruct (filterParticles Math_random r ps s') as [kept s''].
  destruct keep; simpl in *; [|done]. apply Forall_cons. split; [by apply Hst | done].
Qed.

(** The particles after a frame: those of the store, with the new one when
    the guard of line 244 holds, passed through [filter]. *)
Lemma animate_particles r timestamp s :
  ∃ ps s',
    (ps = particlesRef s
     ∨ ((animate Math_random r timestamp s).2 = true
        ∧ (length (particlesRef s) < MAX_PARTICLES)%nat
        ∧ ps = particlesRef s ++ [(createParticle Math_random (draws s)).1]))
    ∧ ((animate Math_random r timestamp s).2 = false → ps = particlesRef s)
    ∧ particlesRef (animate Math_random r timestamp s).1
      = (filterParticles Math_random r ps s').1.
Proof.
  unfold animate, spawnPhase, spawns.
  set (s1 := if falsy (startTimeRef s) then set_startTime (Some timestamp) s else s).
  assert (Hps : particlesRef s1 = particlesRef s) by (unfold s1; by destruct (falsy _)).
  assert (Hd : draws s1 = draws s) by (unfold s1; by destruct (falsy _)).
  destruct (bool_decide (_ > _)) eqn:H1; simpl;
    [destruct (bool_decide (length (particlesRef s1) < MAX_PARTICLES)%nat) eqn:H2; simpl;
       [destruct (running r) eqn:H3; simpl|]|].
  - match goal with |- context [filterParticles Math_random r ?ps ?s0] =>
      destruct (filterParticles Math_random r ps s0) as [kept s2] eqn:Hf;
      exists ps, s0 end.
    simpl. rewrite Hf. simpl. rewrite Hps, Hd. split_and!; [|done|done].
    right. apply bool_decide_eq_true_1 in H2. rewrite Hps in H2. done.
  - destruct (filterParticles Math_random r (particlesRef s1) s1) as [kept s2] eqn:Hf.
    exists (particlesRef s), s1. simpl. rewrite <- Hps, Hf. split_and!; [by left|done|done].
  - destruct (filterParticles Math_random r (particlesRef s1) s1) as [kept s2] eqn:Hf.
    exists (particlesRef s), s1. simpl. rewrite <- Hps, Hf. split_and!; [by left|done|done].
  - destruct (filterParticles Math_random r (particlesRef s1) s1) as [kept s2] eqn:Hf.
    exists (particlesRef s), s1. simpl. rewrite <- Hps, Hf. split_and!; [by left|done|done].
Qed.

(** X10. In every reachable state the store holds at most MAX_PARTICLES
    particles, and no more than the counter of emitted particles says. *)
Theorem population_bounds a :
  reachable Math_random a →
  (length (particlesRef (refs a)) <= MAX_PARTICLES)%nat
  ∧ (length (particlesRef (refs a)) <= counter (hooks a))%nat.
Proof.
  induction 1 as [|a e _ [IH1 IH2] _]; [simpl; unfold MAX_PARTICLES; lia|].
  destruct e as [timestamp| | | | | |]; simpl.
  - destruct (pendingFrame a) as [r|]; [|done].
    destruct (animate_particles r timestamp (refs a)) as (ps & s' & Hps & Hno & Heq).
    pose proof (filterParticles_length r ps s') as Hlen.
    destruct (animate Math_random r timestamp (refs a)) as [s spawned]. simpl in *.
    rewrite Heq.
    destruct Hps as [-> | (-> & Hcap & ->)].
    + destruct spawned; simpl; lia.
    + rewrite length_app in Hlen. simpl in Hlen. lia.
  - destruct (negb (running (hooks a))); done.
  - unfold MAX_PARTICLES. lia.
  - done.
  - done.
  - done.
  - done.
Qed.

(** X11. In every reachable state each particle of the store lies on the
    canvas and its recorded path has between 1 and 100 points. *)
Theorem particles_stored a :
  reachable Math_random a → Forall stored (particlesRef (refs a)).
Proof.
  induction 1 as [|a e _ IH _]; [constructor|].
  destruct e as [timestamp| | | | | |]; simpl.
  - destruct (pendingFrame a) as [r|]; [|done].
    destruct (animate_particles r timestamp (refs a)) as (ps & s' & Hps & _ & Heq).
    destruct (animate Math_random r timestamp (refs a)) as [s spawned]. simpl in *.
    rewrite Heq. apply filterParticles_stored.
    assert (Hold : Forall (λ p, (1 <= length (path p) <= 100)%nat) (particlesRef (refs a))).
    { eapply Forall_impl; [exact IH|]. by intros p [_ Hp]. }
    destruct Hps as [-> | (_ & _ & ->)]; [done|].
    apply Forall_app. split; [done|]. constructor; [simpl; lia | constructor].
  - destruct (negb (running (hooks a))); done.
  - constructor.
  - done.
  - done.
  - done.
  - done.
Qed.

End Component.

(** * What the events do and do not touch *)

Section Events.

Variable Math_random : nat → R.

Lemma histogram_le_refl h : histogram_le h h.
Proof. intros k c Hk. exists c. done. Qed.

Lemma histogram_le_trans h1 h2 h3 :
  histogram_le h1 h2 → histogram_le h2 h3 → histogram_le h1 h3.
Proof.
  intros H12 H23 k c Hk.
  destruct (H12 k c Hk) as (c' & Hk' & Hle).
  destruct (H23 k c' Hk') as (c'' & Hk'' & Hle').
  exists c''. split; [done | lia].
Qed.

Lemma recordAngle_le h angle : histogram_le h (recordAngle h angle).
Proof.
  unfold recordAngle. destruct (h !! binKeyOf angle) as [c0|] eqn:H0;
    [|apply histogram_le_refl].
  intros k c Hk. destruct (decide (k = binKeyOf angle)) as [->|Hne].
  - rewrite lookup_insert_eq. exists (S c0). split; [done|].
    rewrite H0 in Hk. injection Hk as <-. lia.
  - rewrite lookup_insert_ne by done. exists c. done.
Qed.

Lemma filterParticles_histogram_le r ps s :
  histogram_le (histogramDataRef s)
    (histogramDataRef (filterParticles Math_random r ps s).2).
Proof.
  revert s. induction ps as [|p ps IH]; intros s; simpl; [apply histogram_le_refl|].
  pose proof (updateParticlePosition_store Math_random r p s) as Hst.
  destruct (updateParticlePosition Math_random r p s) as [[keep p'] s'].
  specialize (IH s').
  destruct (filterParticles Math_random r ps s') as [kept s'']. simpl in *.
  eapply histogram_le_trans; [|exact IH].
  destruct Hst as [(-> & _) | (angle & _ & _ & -> & _)];
    [apply histogram_le_refl | apply recordAngle_le].
Qed.

Lemma animate_histogram_le r timestamp s :
  histogram_le (histogramDataRef s)
    (histogramDataRef (animate Math_random r timestamp s).1).
Proof.
  unfold animate.
  assert (H1 : histogramDataRef (spawnPhase Math_random r timestamp s).1
               = histogramDataRef s).
  { unfold spawnPhase. destruct (falsy (startTimeRef s)); simpl;
      match goal with |- context [spawns ?a ?b ?c] => destruct (spawns a b c) end; done. }
  destruct (spawnPhase Math_random r timestamp s) as [s1 spawned]. simpl in H1.
  pose proof (filterParticles_histogram_le r (particlesRef s1) s1) as H2.
  destruct (filterParticles Math_random r (particlesRef s1) s1) as [ps s2].
  simpl in *. by rewrite <- H1.
Qed.

(** X12. No event other than Reset removes a bin or lowers a count. *)
Theorem histogram_only_grows a e :
  e ≠ Reset →
  histogram_le (histogramDataRef (refs a))
    (histogramDataRef (refs (step Math_random a e))).
Proof.
  intros He. destruct e as [timestamp| | | | | |]; simpl;
    try apply histogram_le_refl.
  - destruct (pendingFrame a) as [r|]; [|apply histogram_le_refl].
    pose proof (animate_histogram_le r timestamp (refs a)) as H.
    destruct (animate Math_random r timestamp (refs a)) as [s spawned]. done.
  - destruct (negb (running (hooks a))); apply histogram_le_refl.
  - done.
Qed.

(** X13. While the simulation is stopped an animation frame changes
    nothing: no particle is created or moved. *)
Theorem stopped_frame_idle a timestamp :
  reachable Math_random a → running (hooks a) = false →
  step Math_random a (Frame timestamp) = a.
Proof.
  intros Ha Hr. pose proof (reachable_loop_invariant Math_random a Ha) as Hl.
  unfold loop_invariant in Hl. simpl.
  destruct (pendingFrame a) as [r|]; [|done]. destruct Hl. congruence.
Qed.

(** X14. Start/Pause, the sliders and the checkboxes never touch the
    particles, the histogram or the counter: only frames and Reset do. *)
Theorem controls_leave_simulation a es :
  Forall (λ e, e = ToggleSimulation ∨ parameterEvent e = true) es →
  let a' := run Math_random a es in
  particlesRef (refs a') = particlesRef (refs a)
  ∧ histogramDataRef (refs a') = histogramDataRef (refs a)
  ∧ counter (hooks a') = counter (hooks a).
Proof.
  intros Hes. revert a. induction Hes as [|e es He _ IH]; intros a; [done|].
  simpl. destruct (IH (step Math_random a e)) as (-> & -> & ->).
  destruct He as [-> | He].
  - simpl. destruct (negb (running (hooks a))); done.
  - destruct e; simpl in *; done.
Qed.

Lemma updateParticlePosition_startTime r p s :
  startTimeRef (updateParticlePosition Math_random r p s).2 = startTimeRef s.
Proof.
  unfold updateParticlePosition.
  destruct (negb (hasReachedNucleus p) && bool_decide _); [|done].
  destruct (calculateTrajectory Math_random r p (draws s)) as [angle n]. done.
Qed.

Lemma filterParticles_startTime r ps s :
  startTimeRef (filterParticles Math_random r ps s).2 = startTimeRef s.
Proof.
  revert s. induction ps as [|p ps IH]; intros s; simpl; [done|].
  pose proof (updateParticlePosition_startTime r p s) as H1.
  destruct (updateParticlePosition Math_random r p s) as [[keep p'] s'].
  specialize (IH s').
  destruct (filterParticles Math_random r ps s') as [kept s'']. simpl in *. congruence.
Qed.

(** X15. The first frame after Start creates no particle, whatever the
    counter is: Start clears the time origin, the frame sets it to its own
    timestamp, and no time has elapsed. *)
Theorem first_frame_spawns_nothing a timestamp :
  running (hooks a) = false →
  let a' := run Math_random a [ToggleSimulation; Frame timestamp] in
  counter (hooks a') = counter (hooks a)
  ∧ (length (particlesRef (refs a')) <= length (particlesRef (refs a)))%nat
  ∧ startTimeRef (refs a') = Some timestamp.
Proof.
  intros Hr. unfold run. simpl. rewrite Hr. simpl.
  unfold runningEffect. simpl. rewrite Hr. simpl.
  unfold animate, spawnPhase, spawns. simpl.
  rewrite (bool_decide_eq_false_2 (timestamp - timestamp > _)).
  2:{ pose proof (pos_INR (counter (hooks a))). unfold EMISSION_INTERVAL. nra. }
  simpl.
  match goal with |- context [filterParticles Math_random ?r ?ps ?s0] =>
    pose proof (filterParticles_length Math_random r ps s0) as Hlen;
    pose proof (filterParticles_startTime r ps s0) as Hst;
    destruct (filterParticles Math_random r ps s0) as [kept s2]
  end.
  simpl in *. done.
Qed.

(** X16. A slider or checkbox event and a frame can be swapped: the frame
    loop keeps the values of the render that started it, so a parameter
    changed while the simulation runs does not reach the physics of the
    following frames. *)
Theorem parameter_commutes_with_frame a e timestamp :
  parameterEvent e = true →
  step Math_random (step Math_random a e) (Frame timestamp)
  = step Math_random (step Math_random a (Frame timestamp)) e.
Proof.
  intros He. destruct e; try done; simpl;
    (destruct (pendingFrame a) as [r|] eqn:Hp; simpl; rewrite ?Hp; [|done]);
    destruct (animate Math_random r timestamp (refs a)) as [s spawned]; done.
Qed.

End Events.

(** * The histogram panel *)

Lemma histogramEntries_lookup h i k c :
  histogramEntries h !! i = Some (k, c) → h !! k = Some c.
Proof.
  intros Hi. apply list_elem_of_lookup_2 in Hi.
  unfold histogramEntries in Hi. apply list_elem_of_omap in Hi as (k' & _ & Hk').
  destruct (h !! k') as [c'|] eqn:E; simpl in Hk'; [|done].
  by injection Hk' as -> ->.
Qed.

Lemma foldr_max_ge (l : list nat) c : c ∈ l → (c <= foldr Nat.max 1%nat l)%nat.
Proof.
  induction l as [|d l IH]; [by intros ?%elem_of_nil|].
  intros [->|Hin]%elem_of_cons; simpl; [lia|]. specialize (IH Hin). lia.
Qed.

Lemma foldr_max_attained (l : list nat) :
  (1 <= foldr Nat.max 1%nat l)%nat
  ∧ (foldr Nat.max 1%nat l = 1%nat ∨ foldr Nat.max 1%nat l ∈ l).
Proof.
  induction l as [|d l [IH1 IH2]]; simpl; [split; [lia | by left]|].
  split; [lia|].
  destruct (Nat.max_spec d (foldr Nat.max 1%nat l)) as [[_ ->]|[_ ->]].
  - destruct IH2 as [?|?]; [by left | right; by apply elem_of_cons; right].
  - right. apply elem_of_cons. by left.
Qed.

(** X17. Every bar fits the panel: the scale is at least 1, so the
    division of line 212 never has a zero denominator, and the bar of the
    i-th entry is 9 wide, starts at x = 400 + 10·i, has a height between 0
    and 100 and stands on the base line y = 120. *)
Theorem bar_fits_panel h i k c :
  histogramEntries h !! i = Some (k, c) →
  let '(bx, btop, bw, bh) := barRect (maxValue h) i c in
  (1 <= maxValue h)%nat
  ∧ bx = 400 + 10 * INR i ∧ bw = 9
  ∧ 0 <= bh <= 100 ∧ btop + bh = 120.
Proof.
  intros Hi. unfold barRect, histogramX, histogramHeight, histogramWidth, histogramY, WIDTH.
  cbv beta iota zeta.
  assert (Hc : (c <= maxValue h)%nat).
  { apply foldr_max_ge. apply list_elem_of_fmap. exists (k, c).
    split; [done|]. by eapply list_elem_of_lookup_2. }
  destruct (foldr_max_attained ((histogramEntries h).*2)) as [Hm _]. fold (maxValue h) in Hm.
  assert (Hm' : 1 <= INR (maxValue h)) by (apply (le_INR 1); lia).
  assert (Hc' : INR c <= INR (maxValue h)) by by apply le_INR.
  pose proof (pos_INR c) as Hc0.
  split_and!; [done | lra | lra | | | ring].
  - apply Rmult_le_pos; [|lra]. apply Rmult_le_pos; [lra|].
    apply Rlt_le, Rinv_0_lt_compat. lra.
  - assert (INR c / INR (maxValue h) <= 1); [|lra].
    apply Rmult_le_reg_r with (INR (maxValue h)); [lra|].
    unfold Rdiv. rewrite Rmult_assoc, Rinv_l by lra. lra.
Qed.

(** X18. When some bin is not empty, a fullest bin is drawn with the full
    height 100. *)
Theorem fullest_bar_full_height h k0 c0 :
  h !! k0 = Some c0 → (0 < c0)%nat →
  ∃ i k c, histogramEntries h !! i = Some (k, c)
           ∧ c = maxValue h
           ∧ (barRect (maxValue h) i c).2 = 100.
Proof.
  intros Hk0 Hc0.
  assert (Hin0 : (k0, c0) ∈ histogramEntries h).
  { unfold histogramEntries. apply list_elem_of_omap. exists k0. split.
    - unfold histogramKeys. rewrite merge_sort_Permutation.
      apply elem_of_elements, elem_of_dom. by eexists.
    - by rewrite Hk0. }
  destruct (foldr_max_attained ((histogramEntries h).*2)) as [Hm Hat].
  fold (maxValue h) in Hm, Hat.
  assert (Hin : maxValue h ∈ (histogramEntries h).*2).
  { destruct Hat as [H1|Hin]; [|done].
    assert (c0 <= maxValue h)%nat.
    { apply foldr_max_ge. apply list_elem_of_fmap. by exists (k0, c0). }
    assert (c0 = maxValue h) as <- by lia.
    apply list_elem_of_fmap. by exists (k0, c0). }
  apply list_elem_of_fmap in Hin as ([k c] & Hc & Hin). change (maxValue h = c) in Hc.
  apply list_elem_of_lookup_1 in Hin as [i Hi].
  exists i, k, c. split; [done|]. split; [done|].
  unfold barRect, histogramHeight. cbn [snd]. rewrite Hc.
  assert (1 <= INR c) by (apply (le_INR 1); lia).
  unfold Rdiv. rewrite Rinv_r by lra. lra.
Qed.

Lemma binKeys_sorted_keys h :
  dom h = list_to_set (C := gset Z) binKeys → histogramKeys h = binKeys.
Proof.
  intros Hdom. unfold histogramKeys. rewrite Hdom.
  apply (Sorted_unique Z.le).
  - apply Sorted_merge_sort. apply _.
  - unfold binKeys. simpl. repeat constructor; lia.
  - rewrite merge_sort_Permutation. apply elements_list_to_set.
    apply (bool_decide_unpack _). by vm_compute.
Qed.

Lemma histogramEntries_keys h : (histogramEntries h).*1 = histogramKeys h.
Proof.
  unfold histogramEntries.
  assert (Hall : Forall (λ k, is_Some (h !! k)) (histogramKeys h)).
  { apply Forall_forall. intros k Hk. unfold histogramKeys in Hk.
    rewrite merge_sort_Permutation in Hk. by apply elem_of_dom, elem_of_elements. }
  induction Hall as [|k l [c Hc] _ IH]; [done|].
  simpl. rewrite Hc. simpl. f_equal. exact IH.
Qed.

Section Panel.

Variable Math_random : nat → R.

(** X19. In every reachable state the panel has eighteen bars, one per
    bin in ascending order of the angle, and the angle is written under
    every third bar: 0, 30, 60, 90, 120 and 150. *)
Theorem panel_layout a :
  reachable Math_random a →
  let h := histogramDataRef (refs a) in
  (histogramEntries h).*1 = [0; 10; 20; 30; 40; 50; 60; 70; 80; 90; 100; 110; 120; 130;
                             140; 150; 160; 170]%Z
  ∧ angleLabels (drawHistogram h) = [0; 30; 60; 90; 120; 150]%Z.
Proof.
  intros Ha h.
  destruct (reachable_store_invariant Math_random a Ha) as [Hdom _]. fold h in Hdom.
  assert (Hkeys : (histogramEntries h).*1 = binKeys).
  { by rewrite histogramEntries_keys, binKeys_sorted_keys. }
  split; [exact Hkeys|].
  unfold drawHistogram. set (m := maxValue h). clearbody m.
  destruct (histogramEntries h) as [|[k0 c0] l]; [done|].
  unfold binKeys in Hkeys. simpl in Hkeys.
  injection Hkeys as -> Hkeys.
  do 17 (destruct l as [|[? ?] l]; [done|]; simpl in Hkeys; injection Hkeys as -> Hkeys).
  destruct l; [|done].
  reflexivity.
Qed.

End Panel.

(** * Restarting, and the bins *)

(** X20. Pausing a running simulation and starting it again clears the
    time origin and registers the frame loop of the current render: from
    then on the loop reads the current counter and parameters. *)
Theorem restart_refreshes_loop (Math_random : nat → R) a :
  running (hooks a) = true →
  let a' := run Math_random a [ToggleSimulation; ToggleSimulation] in
  hooks a' = hooks a
  ∧ pendingFrame a' = Some (hooks a)
  ∧ startTimeRef (refs a') = None
  ∧ particlesRef (refs a') = particlesRef (refs a)
  ∧ histogramDataRef (refs a') = histogramDataRef (refs a).
Proof.
  intros Hr. unfold run. simpl. unfold runningEffect. simpl. rewrite Hr. simpl.
  destruct (hooks a) as [run0 c z e sp sh] eqn:Hh. simpl in Hr. subst run0.
  done.
Qed.

(** X21. The bin key is a multiple of 10, the bin that starts there holds
    the magnitude of the angle, and an angle and its opposite fall into
    the same bin. *)
Theorem binKeyOf_covers angle :
  (binKeyOf angle mod 10 = 0)%Z
  ∧ IZR (binKeyOf angle) <= Rabs angle < IZR (binKeyOf angle) + 10
  ∧ binKeyOf (- angle) = binKeyOf angle.
Proof.
  unfold binKeyOf. split; [|split].
  - apply Z.mod_mul. lia.
  - pose proof (Zfloor_bound (Rabs angle / 10)) as [Hlo Hhi].
    rewrite mult_IZR. lra.
  - by rewrite Rabs_Ropp.
Qed.

(** X22. An angle is counted in one of the eighteen bins exactly when its
    magnitude is below 180 degrees. *)
Theorem binKeyOf_registered angle :
  binKeyOf angle ∈ binKeys ↔ Rabs angle < 180.
Proof.
  pose proof (Zfloor_bound (Rabs angle / 10)) as [Hlo Hhi].
  pose proof (Rabs_pos angle) as Hpos.
  unfold binKeyOf. split.
  - intros Hin%binKeys_range.
    assert (Zfloor (Rabs angle / 10) <= 17)%Z as Hz%IZR_le by lia. lra.
  - intros Hlt.
    assert (H0 : (0 <= Zfloor (Rabs angle / 10))%Z) by (apply (Zfloor_lub 0); simpl; lra).
    assert (H18 : (Zfloor (Rabs angle / 10) < 18)%Z) by (apply lt_IZR; lra).
    unfold binKeys. apply list_elem_of_fmap.
    exists (Z.to_nat (Zfloor (Rabs angle / 10))). split; [lia|].
    apply elem_of_seq. lia.
Qed.

(** * The properties above at given inputs *)

Lemma skimming_range n : 0 <= skimming n < 1.
Proof. destruct n as [|[|n]]; simpl; lra. Qed.

Lemma deflection_grows_with_charge_witness :
  let p := mkParticle 286.5 240 1.5 0 40 false [] in
  Rabs (calculateTrajectory (λ _, 0.5) (mkRender true 0 79 5 true true) p 0).1
  < Rabs (calculateTrajectory (λ _, 0.5) (mkRender true 0 92 5 true true) p 0).1.
Proof.
  intros p.
  apply (deflection_grows_with_charge (λ _, 0.5) (mkRender true 0 79 5 true true)
           (mkRender true 0 92 5 true true) p 0); simpl; lra.
Defined.

Lemma deflection_shrinks_with_impact_witness :
  let r := mkRender true 0 79 5 true true in
  Rabs (calculateTrajectory (λ _, 0.5) r (mkParticle 286.5 240 1.5 0 40 false []) 0).1
  < Rabs (calculateTrajectory (λ _, 0.5) r (mkParticle 286.5 220 1.5 0 20 false []) 0).1.
Proof.
  intros r.
  apply (deflection_shrinks_with_impact (λ _, 0.5) r
           (mkParticle 286.5 220 1.5 0 20 false [])
           (mkParticle 286.5 240 1.5 0 40 false []) 0); simpl;
    rewrite ?Rabs_pos_eq by lra; lra.
Defined.

Lemma calculateTrajectory_bounded_witness :
  let angle := (calculateTrajectory skimming (mkRender true 0 79 5 true true)
                  (mkParticle 286.5 200.01 1.5 0 0.01 false []) 1).1 in
  Rabs angle < 198
  ∧ ∃ i : Z, (0 <= i <= 19)%Z ∧ binKeyOf angle = (i * 10)%Z.
Proof.
  apply (calculateTrajectory_bounded skimming (mkRender true 0 79 5 true true)
           (mkParticle 286.5 200.01 1.5 0 0.01 false []) 1).
  simpl. lra.
Defined.

Lemma calculateTrajectory_sign_witness :
  0 < (calculateTrajectory (λ _, 0.5) (mkRender true 0 79 5 true true)
         (mkParticle 286.5 240 1.5 0 40 false []) 0).1
  ∧ (calculateTrajectory (λ _, 0.5) (mkRender true 0 79 5 true true)
       (mkParticle 286.5 160 1.5 0 (-40) false []) 0).1 < 0.
Proof.
  split.
  - apply (calculateTrajectory_sign (λ _, 0.5) (mkRender true 0 79 5 true true)
             (mkParticle 286.5 240 1.5 0 40 false []) 0); simpl; lra.
  - apply (calculateTrajectory_sign (λ _, 0.5) (mkRender true 0 79 5 true true)
             (mkParticle 286.5 160 1.5 0 (-40) false []) 0); simpl; lra.
Defined.

Lemma scattered_iff_close_witness :
  let r := mkRender true 1 79 5 true true in
  let s := mkRefs [] initialHistogram (Some 1000) 1 0 0 in
  (∃ q, lifetime skimming (replicate 201 (r, s)) (createParticle skimming 0).1 !! 201%nat
        = Some q ∧ hasReachedNucleus q = true)
  ∧ hasReachedNucleus (updateParticlePosition skimming r (createParticle skimming 1).1 s).1.2
    = false.
Proof.
  intros r s. split.
  - apply (scattered_iff_close skimming 0).
    + simpl. unfold HEIGHT. rewrite Rabs_pos_eq; lra.
    + by rewrite length_replicate.
  - apply (proj1 (scattered_iff_close skimming 1)) with (ticks := [(r, s)]) (i := 1%nat).
    + simpl. unfold HEIGHT. rewrite Rabs_pos_eq; lra.
    + reflexivity.
Defined.

Lemma unscattered_crossing_witness :
  let r := mkRender true 1 79 5 true true in
  let s := mkRefs [] initialHistogram (Some 1000) 1 0 0 in
  (updateParticlePosition skimming r (createParticle skimming 1).1 s).1.1
  = bool_decide (0 < 400)%nat.
Proof.
  intros r s.
  apply (unscattered_crossing skimming 1 [] 0 (createParticle skimming 1).1 r s).
  - simpl. lra.
  - simpl. unfold HEIGHT. rewrite Rabs_pos_eq; lra.
  - reflexivity.
Defined.

Lemma deflection_keeps_speed_witness :
  let p := mkParticle 286.5 200.01 1.5 0 0.01 false [] in
  let r := mkRender true 1 79 5 true true in
  let s := mkRefs [p] initialHistogram (Some 1000) 1 0 0 in
  let p' := (updateParticlePosition skimming r p s).1.2 in
  ∃ dx dy, Rabs dx <= 0.1 ∧ Rabs dy <= 0.1
    ∧ (vx p' - dx) ^ 2 + (vy p' - dy) ^ 2 = vx p ^ 2 + vy p ^ 2.
Proof.
  intros p r s.
  apply (deflection_keeps_speed skimming r p s skimming_range); [reflexivity|].
  simpl. unfold WIDTH, HEIGHT, NUCLEUS_RADIUS.
  apply sqrt_le_bound; [apply Rplus_le_le_0_compat; apply pow2_ge_0 | lra | lra].
Defined.


Lemma population_bounds_witness :
  let a := run skimming mount wideAngleEvents in
  (length (particlesRef (refs a)) <= MAX_PARTICLES)%nat
  ∧ (length (particlesRef (refs a)) <= counter (hooks a))%nat.
Proof.
  apply (population_bounds skimming (run skimming mount wideAngleEvents)).
  apply reachable_run; [constructor | apply wideAngleEvents_admissible].
Defined.

Lemma particles_stored_witness :
  Forall stored (particlesRef (refs (run skimming mount wideAngleEvents))).
Proof.
  apply (particles_stored skimming (run skimming mount wideAngleEvents)).
  apply reachable_run; [constructor | apply wideAngleEvents_admissible].
Defined.

Lemma histogram_only_grows_witness :
  let a := run skimming mount [ToggleSimulation; Frame 1000] in
  histogram_le (histogramDataRef (refs a))
    (histogramDataRef (refs (step skimming a (Frame 1016)))).
Proof.
  intros a. apply (histogram_only_grows skimming a (Frame 1016)). discriminate.
Defined.

Lemma stopped_frame_idle_witness : step skimming mount (Frame 1000) = mount.
Proof.
  apply (stopped_frame_idle skimming mount 1000); [constructor | reflexivity].
Defined.

Lemma controls_leave_simulation_witness :
  let a := run skimming mount [ToggleSimulation; Frame 1000; Frame 1016] in
  let a' := run skimming a [ToggleSimulation; SetNuclearCharge 92; ToggleShowPaths] in
  particlesRef (refs a') = particlesRef (refs a)
  ∧ histogramDataRef (refs a') = histogramDataRef (refs a)
  ∧ counter (hooks a') = counter (hooks a).
Proof.
  intros a.
  apply (controls_leave_simulation skimming a
           [ToggleSimulation; SetNuclearCharge 92; ToggleShowPaths]).
  repeat constructor; (by left) || (by right).
Defined.

Lemma first_frame_spawns_nothing_witness :
  let a' := run skimming mount [ToggleSimulation; Frame 1000] in
  counter (hooks a') = counter (hooks mount)
  ∧ (length (particlesRef (refs a')) <= length (particlesRef (refs mount)))%nat
  ∧ startTimeRef (refs a') = Some 1000.
Proof.
  apply (first_frame_spawns_nothing skimming mount 1000). reflexivity.
Defined.

Lemma parameter_commutes_with_frame_witness :
  let a := run skimming mount [ToggleSimulation; Frame 1000] in
  step skimming (step skimming a (SetAlphaEnergy 10)) (Frame 1016)
  = step skimming (step skimming a (Frame 1016)) (SetAlphaEnergy 10).
Proof.
  intros a.
  apply (parameter_commutes_with_frame skimming a (SetAlphaEnergy 10) 1016). reflexivity.
Defined.

Lemma bar_fits_panel_witness :
  let h : gmap Z nat := <[10%Z := 1%nat]> {[0%Z := 3%nat]} in
  let '(bx, btop, bw, bh) := barRect (maxValue h) 1 1 in
  (1 <= maxValue h)%nat
  ∧ bx = 400 + 10 * INR 1 ∧ bw = 9
  ∧ 0 <= bh <= 100 ∧ btop + bh = 120.
Proof.
  intros h. apply (bar_fits_panel h 1 10%Z 1). by vm_compute.
Defined.

Lemma fullest_bar_full_height_witness :
  let h : gmap Z nat := <[10%Z := 1%nat]> {[0%Z := 3%nat]} in
  ∃ i k c, histogramEntries h !! i = Some (k, c)
           ∧ c = maxValue h
           ∧ (barRect (maxValue h) i c).2 = 100.
Proof.
  intros h. apply (fullest_bar_full_height h 0%Z 3); [by vm_compute | lia].
Defined.

Lemma panel_layout_witness :
  let h := histogramDataRef (refs mount) in
  (histogramEntries h).*1 = [0; 10; 20; 30; 40; 50; 60; 70; 80; 90; 100; 110; 120; 130;
                             140; 150; 160; 170]%Z
  ∧ angleLabels (drawHistogram h) = [0; 30; 60; 90; 120; 150]%Z.
Proof. apply (panel_layout skimming mount). constructor. Defined.

Lemma restart_refreshes_loop_witness :
  let a := run skimming mount [ToggleSimulation; Frame 1000; Frame 1016] in
  let a' := run skimming a [ToggleSimulation; ToggleSimulation] in
  hooks a' = hooks a
  ∧ pendingFrame a' = Some (hooks a)
  ∧ startTimeRef (refs a') = None
  ∧ particlesRef (refs a') = particlesRef (refs a)
  ∧ histogramDataRef (refs a') = histogramDataRef (refs a).
Proof.
  intros a. apply (restart_refreshes_loop skimming a).
  unfold a. by rewrite cruise_spawn.
Defined.
